(** * LoLa: the bounded conversation store and the ReAct tool loop

    A shallow embedding of [src/memory/store.ts] (class [MemoryStore]) and of
    the LangGraph wiring ([createAgentNode], [createToolsNode],
    [shouldContinue], [createGraph]), together with the properties the
    specification states about them.

    JavaScript arrays are heap objects: [MemoryStore.messages] is a reference
    that [push] mutates in place and that the eviction branch re-assigns to a
    freshly built array.  The store is therefore modelled over an explicit
    heap of arrays, so that aliasing between the store and the arrays it hands
    out is a statement about the model and not an artefact of it. *)

From Stdlib Require Import Ascii.
From stdpp Require Import base numbers list gmap strings.

Local Open Scope Z_scope.

(** ** Messages *)

(** The values [_getType()] returns for the message classes the agent uses. *)
Inductive MessageType := system | human | ai | tool.

Global Instance MessageType_eq_dec : EqDecision MessageType.
Proof. solve_decision. Defined.

(** Tool arguments are a [Record<string, any>]; [Json] stands for [any]. *)
#[local] Unset Elimination Schemes.
Inductive Json :=
| JNull
| JBool (b : bool)
| JNum (n : Z)
| JStr (s : string)
| JArr (xs : list Json)
| JObj (fields : list (string * Json)).
#[local] Set Elimination Schemes.

Record ToolCall := {
  tc_name : string;
  tc_args : list (string * Json);
  tc_id : string;
}.

(** A [BaseMessage]; [tool_calls] is [None] where the property is
    [undefined] (every message that is not an AI message), and [msg_id] is
    the message's [id], [None] where it is [undefined]. *)
Record Message := {
  _getType : MessageType;
  content : string;
  tool_calls : option (list ToolCall);
  name : option string;
  tool_call_id : option string;
  msg_id : option string;
}.

(** [Array.prototype.slice(start)] with an integral [start]: a negative
    [start] counts from the end and is clamped at the front, a non-negative
    one (this includes [-0]) counts from the front and is clamped at the
    end. *)
Definition slice {A} (start : Z) (l : list A) : list A :=
  let len := Z.of_nat (length l) in
  let k := if bool_decide (start < 0) then Z.max (len + start) 0
           else Z.min start len in
  drop (Z.to_nat k) l.

(** ** The heap of arrays *)

Definition loc := positive.

Abbreviation heap := (gmap loc (list Message)).

(** Allocation of a new array object. *)
Definition alloc (arr : list Message) (h : heap) : loc * heap :=
  let l := fresh (dom h) in (l, <[l := arr]> h).

(** The elements of the array at [l]. *)
Definition read (h : heap) (l : loc) : list Message :=
  default [] (h !! l).

(** ** [MemoryStore] *)

Module MemoryStore.

Record t := {
  messages : loc;
  maxMessages : Z;
}.

(** [constructor(maxMessages: number = 50)]; the field initialiser
    [messages = []] allocates the array. *)
Definition constructor (maxMessages : option Z) (h : heap) : t * heap :=
  let '(l, h') := alloc [] h in
  ({| messages := l; maxMessages := default 50 maxMessages |}, h').

(** The body of the [if] in [addMessages]: the array that replaces
    [this.messages]. *)
Definition evicted (maxMessages : Z) (arr : list Message) : list Message :=
  let systemMessages := filter (λ m, _getType m = system) arr in
  let otherMessages := filter (λ m, _getType m ≠ system) arr in
  let recentMessages := slice (- maxMessages) otherMessages in
  systemMessages ++ recentMessages.

(** [addMessages(messages)]: [push] extends the array in place; when the
    length exceeds [maxMessages] the field is re-assigned to a new array. *)
Definition addMessages (this : t) (msgs : list Message) (h : heap) : t * heap :=
  let h1 := alter (λ arr, arr ++ msgs) (messages this) h in
  let arr := read h1 (messages this) in
  if bool_decide (maxMessages this < Z.of_nat (length arr)) then
    let '(l, h2) := alloc (evicted (maxMessages this) arr) h1 in
    ({| messages := l; maxMessages := maxMessages this |}, h2)
  else (this, h1).

(** [getMessages()]: the spread builds a new array. *)
Definition getMessages (this : t) (h : heap) : loc * heap :=
  alloc (read h (messages this)) h.

(** [getRecentMessages(count)]: [slice] builds a new array. *)
Definition getRecentMessages (this : t) (count : Z) (h : heap) : loc * heap :=
  alloc (slice (- count) (read h (messages this))) h.

(** [clear()]: the field is re-assigned to a new empty array. *)
Definition clear (this : t) (h : heap) : t * heap :=
  let '(l, h') := alloc [] h in
  ({| messages := l; maxMessages := maxMessages this |}, h').

(** [getMessageCount()]. *)
Definition getMessageCount (this : t) (h : heap) : nat :=
  length (read h (messages this)).

(** The calls a client can make, and a store driven by a sequence of them.
    Results of the reading calls are dropped; their allocations stay. *)
Inductive Op :=
| AddMessages (msgs : list Message)
| GetMessages
| GetRecentMessages (count : Z)
| Clear
| GetMessageCount.

Definition step (op : Op) (st : t * heap) : t * heap :=
  let '(this, h) := st in
  match op with
  | AddMessages msgs => addMessages this msgs h
  | GetMessages => (this, (getMessages this h).2)
  | GetRecentMessages count => (this, (getRecentMessages this count h).2)
  | Clear => clear this h
  | GetMessageCount => (this, h)
  end.

Definition run (ops : list Op) (st : t * heap) : t * heap :=
  foldl (λ st op, step op st) st ops.

(** The store's array exists in the heap. *)
Definition wf (st : t * heap) : Prop :=
  is_Some (st.2 !! messages st.1).

(** What the store holds: the elements of its array. *)
Definition stored (st : t * heap) : list Message :=
  read st.2 (messages st.1).

(** The predicate of the first [filter] of [addMessages]. *)
Definition is_system (m : Message) : Prop := _getType m = system.

Global Instance is_system_dec m : Decision (is_system m).
Proof. unfold is_system. apply _. Defined.

Definition instructions (l : list Message) : list Message :=
  filter (λ m, _getType m = system) l.

Definition others (l : list Message) : list Message :=
  filter (λ m, _getType m ≠ system) l.

(** What the store's array holds after [addMessages] when it held [old]
    before: [addMessages] with the heap taken away. *)
Definition appended (maxMessages : Z) (old msgs : list Message) : list Message :=
  let arr := old ++ msgs in
  if bool_decide (maxMessages < Z.of_nat (length arr)) then evicted maxMessages arr
  else arr.

(** The states a store goes through under a sequence of [addMessages]
    calls, one state per call. *)
Fixpoint trace (st : t * heap) (batches : list (list Message)) : list (t * heap) :=
  match batches with
  | [] => []
  | msgs :: rest =>
      let st' := addMessages st.1 msgs st.2 in st' :: trace st' rest
  end.

(** The turns handed to the store since its last [clear], in order. *)
Definition since_clear (acc : list Message) (ops : list Op) : list Message :=
  foldl (λ acc op, match op with
                   | AddMessages msgs => acc ++ msgs
                   | Clear => []
                   | _ => acc
                   end) acc ops.

(** What one call does to the stored sequence, and a sequence of calls. *)
Definition step_list (maxMessages : Z) (l : list Message) (op : Op) : list Message :=
  match op with
  | AddMessages msgs => appended maxMessages l msgs
  | Clear => []
  | _ => l
  end.

Definition run_list (maxMessages : Z) (l : list Message) (ops : list Op)
    : list Message :=
  foldl (step_list maxMessages) l ops.

(** The calls that assign to or mutate [this.messages]. *)
Definition writes (op : Op) : bool :=
  match op with
  | AddMessages _ | Clear => true
  | _ => false
  end.

(** A stored sequence on which the eviction branch changes nothing: either
    it is not longer than the bound, or it is already grouped and sliced. *)
Definition settled (maxMessages : Z) (l : list Message) : Prop :=
  Z.of_nat (length l) ≤ maxMessages
  ∨ (l = instructions l ++ others l
     ∧ slice (- maxMessages) (others l) = others l).

End MemoryStore.

Definition msg (ty : MessageType) (text : string) : Message :=
  {| _getType := ty; content := text; tool_calls := None;
     name := None; tool_call_id := None; msg_id := None |}.


(** ** The ReAct graph: agent node, tools node, routing *)

Module Graph.

(** A value caught by [catch (e: any)]: [exn_message] is [e?.message]
    ([None] when it is [undefined]) and [exn_string] is [String(e)]. *)
Record Exn := {
  exn_message : option string;
  exn_string : string;
}.

(** The nodes of the graph; [START] and [END] are LangGraph's. *)
Inductive Node := START | agent | tools | END.

Global Instance Node_eq_dec : EqDecision Node.
Proof. solve_decision. Defined.

(** One element of the [results] array of [toolsNode]. *)
Record ToolResult := {
  role : string;
  tr_name : string;
  tr_content : string;
  tr_tool_call_id : string;
}.

Definition dquote : string := String "034"%char EmptyString.

(** [s.startsWith(p)] and [s.includes(sub)] *)
Fixpoint startsWith (p s : string) : bool :=
  match p, s with
  | EmptyString, _ => true
  | String a p', String b s' => bool_decide (a = b) && startsWith p' s'
  | String _ _, EmptyString => false
  end.

Fixpoint includes (sub s : string) : bool :=
  startsWith sub s ||
  match s with
  | EmptyString => false
  | String _ s' => includes sub s'
  end.

Section WithWorld.

(** Everything outside the process that a tool or the model can touch: the
    browser, the network, the model service. *)
Context {World : Type}.

(** The world together with two history variables: the tool invocations
    made so far and the graph nodes run so far.  Nothing in the program reads
    them; they exist so that "was not invoked" can be stated. *)
Record Runtime := {
  world : World;
  invoked : list (string * list (string * Json));
  visited : list Node;
}.

(** A computation that may throw. *)
Definition Js (A : Type) : Type := Runtime → (Exn + A) * Runtime.

Definition ret {A} (a : A) : Js A := λ σ, (inr a, σ).

Definition throw {A} (e : Exn) : Js A := λ σ, (inl e, σ).

Definition bind {A B} (c : Js A) (k : A → Js B) : Js B :=
  λ σ, match c σ with
       | (inl e, σ') => (inl e, σ')
       | (inr a, σ') => k a σ'
       end.

(** [try { c } catch (e) { handler e }] *)
Definition try_catch {A} (c : Js A) (handler : Exn → Js A) : Js A :=
  λ σ, match c σ with
       | (inl e, σ') => handler e σ'
       | (inr a, σ') => (inr a, σ')
       end.

(** A [StructuredToolInterface]: its name and what [invoke] does. *)
Record StructuredTool := {
  tool_name : string;
  tool_invoke : list (string * Json) → World → (Exn + Json) * World;
}.

(** [JSON.stringify] *)
Context (JSON_stringify : Json → string).

(** [await t.invoke(args)] *)
Definition invoke (t : StructuredTool) (args : list (string * Json)) : Js Json :=
  λ σ, let '(r, w) := tool_invoke t args (world σ) in
       (r, {| world := w;
              invoked := invoked σ ++ [(tool_name t, args)];
              visited := visited σ |}).

(** [e?.message ?? String(e)] *)
Definition error_text (e : Exn) : string :=
  default (exn_string e) (exn_message e).

(** [typeof out === "string" ? out : JSON.stringify(out)] *)
Definition resultStr (out : Json) : string :=
  match out with
  | JStr s => s
  | _ => JSON_stringify out
  end.

(** The body of the [for] loop of [toolsNode] for one [call]; the value is
    the object pushed onto [results].  The [logger] calls and the timing
    around [invoke] only feed the console and are left out. *)
Definition run_call (tools : list StructuredTool) (call : ToolCall) : Js ToolResult :=
  let name := tc_name call in
  let args := tc_args call in
  match List.find (λ x, String.eqb (tool_name x) name) tools with
  | None =>
      ret {| role := "tool"; tr_name := name;
             tr_content := "ERROR: unknown tool " +:+ dquote +:+ name +:+ dquote;
             tr_tool_call_id := tc_id call |}
  | Some t =>
      try_catch
        (bind (invoke t args) (λ out,
           ret {| role := "tool"; tr_name := name;
                  tr_content := resultStr out;
                  tr_tool_call_id := tc_id call |}))
        (λ e,
           ret {| role := "tool"; tr_name := name;
                  tr_content := "ERROR running tool " +:+ dquote +:+ name
                                +:+ dquote +:+ ": " +:+ error_text e;
                  tr_tool_call_id := tc_id call |})
  end.

(** [for (const call of toolCalls) { ... results.push(...) }] *)
Fixpoint for_calls (tools : list StructuredTool) (toolCalls : list ToolCall)
    (results : list ToolResult) : Js (list ToolResult) :=
  match toolCalls with
  | [] => ret results
  | call :: rest =>
      bind (run_call tools call) (λ r, for_calls tools rest (results ++ [r]))
  end.

(** [state.messages[state.messages.length - 1]?.tool_calls ?? []] *)
Definition last_tool_calls (messages : list Message) : list ToolCall :=
  match last messages with
  | Some m => default [] (tool_calls m)
  | None => []
  end.

(** [createToolsNode(tools)]: the node returns [{ messages: results }]. *)
Definition createToolsNode (tools : list StructuredTool)
    (messages : list Message) : Js (list ToolResult) :=
  let toolCalls := last_tool_calls messages in
  if bool_decide (length toolCalls = 0%nat) then ret []
  else for_calls tools toolCalls [].

(** [createAgentNode(llm, tools, systemMessage)]; [llm] is
    [llm.bindTools(tools).invoke].  The node's [logger] calls (the last user
    message, the planned tool calls) are left out. *)
Definition createAgentNode
    (llm : list StructuredTool → list Message → World → (Exn + Message) * World)
    (tools : list StructuredTool) (systemMessage : Message)
    (messages : list Message) : Js (list Message) :=
  λ σ, let '(r, w) := llm tools (systemMessage :: messages) (world σ) in
       let σ' := {| world := w; invoked := invoked σ; visited := visited σ |} in
       match r with
       | inl e => (inl e, σ')
       | inr response => (inr [response], σ')
       end.






(** [shouldContinue(state)] *)
Definition shouldContinue (messages : list Message) : Node :=
  let toolCalls := last_tool_calls messages in
  if bool_decide (length toolCalls = 0%nat) then END else tools.

(** The message LangGraph's reducer stores for a plain
    [{role: "tool", name, content, tool_call_id}] object. *)
Definition coerce (r : ToolResult) : Message :=
  {| _getType := tool; content := tr_content r; tool_calls := None;
     name := Some (tr_name r); tool_call_id := Some (tr_tool_call_id r);
     msg_id := None |}.

(** A compiled [StateGraph(MessagesAnnotation)]: what each node returns as
    its [messages] update, and the node that follows it. *)
Record CompiledGraph := {
  node_update : Node → list Message → Js (list Message);
  next_node : Node → list Message → Node;
}.

(** [createGraph(llm, tools, systemMessage)]: the edges are
    [START -> agent], [agent -> shouldContinue], [tools -> agent]. *)
Definition createGraph
    (llm : list StructuredTool → list Message → World → (Exn + Message) * World)
    (tools : list StructuredTool) (systemMessage : Message) : CompiledGraph :=
  let agentNode := createAgentNode llm tools systemMessage in
  let toolsNode := createToolsNode tools in
  {| node_update := λ n messages,
       match n with
       | agent => agentNode messages
       | tools => bind (toolsNode messages) (λ results, ret (coerce <$> results))
       | START | END => ret []
       end;
     next_node := λ n messages,
       match n with
       | START => agent
       | agent => shouldContinue messages
       | tools => agent
       | END => END
       end |}.

(** Records in the history variable that node [n] is being run. *)
Definition visit (n : Node) : Js () :=
  λ σ, (inr (), {| world := world σ; invoked := invoked σ;
                   visited := visited σ ++ [n] |}).

(** LangGraph, [uuid]: [v4()] gives a new uuid. *)
Context (v4 : World → string * World).

(** The error a run rejects with when its recursion limit is used up;
    LangGraph builds its text from the limit. *)
Context (GraphRecursionError : Exn).

Definition set_id (m : Message) (u : string) : Message :=
  {| _getType := _getType m; content := content m; tool_calls := tool_calls m;
     name := name m; tool_call_id := tool_call_id m; msg_id := Some u |}.

(** [if (m.id === null || m.id === undefined) m.id = v4()] *)
Definition assign_id (m : Message) : Js Message :=
  λ σ, match msg_id m with
       | Some _ => (inr m, σ)
       | None =>
           let '(u, w) := v4 (world σ) in
           (inr (set_id m u),
            {| world := w; invoked := invoked σ; visited := visited σ |})
       end.

(** The two [for] loops of the reducer that give every message an id. *)
Fixpoint assign_ids (ms : list Message) : Js (list Message) :=
  match ms with
  | [] => ret []
  | m :: rest =>
      bind (assign_id m) (λ m',
      bind (assign_ids rest) (λ rest', ret (m' :: rest')))
  end.

(** [new Map(merged.map((m, i) => [m.id, i]))]: a later entry with the same
    key replaces an earlier one. *)
Definition index_by_id (merged : list Message) : gmap (option string) nat :=
  foldl (λ byId kv, <[kv.1 := kv.2]> byId) ∅
        (imap (λ i m, (msg_id m, i)) merged).

(** The body of the merging loop of the reducer: a message whose id is in
    the map replaces the message at that index, any other message is
    pushed.  [RemoveMessage] does not occur among the messages of this
    program, so its branches are left out. *)
Definition merge_one (st : list Message * gmap (option string) nat)
    (m : Message) : list Message * gmap (option string) nat :=
  let '(merged, mergedById) := st in
  match mergedById !! msg_id m with
  | Some existingIdx => (<[existingIdx := m]> merged, mergedById)
  | None => (merged ++ [m], <[msg_id m := length merged]> mergedById)
  end.

(** LangGraph's [messagesStateReducer(left, right)], the reducer of
    [MessagesAnnotation]. *)
Definition messagesStateReducer (left right : list Message) : Js (list Message) :=
  bind (assign_ids left) (λ leftMessages,
  bind (assign_ids right) (λ rightMessages,
    ret (foldl merge_one (leftMessages, index_by_id leftMessages)
               rightMessages).1)).

(** LangGraph's run of a compiled graph from node [n]: run the node, merge
    its update into [messages] with the reducer, follow the edge; [END]
    returns the state.  Every node run and the final step that finds [END]
    take one step each from [recursionLimit], as in LangGraph, where a run
    of [k] nodes is rejected unless the limit is above [k]. *)
Fixpoint run_from (g : CompiledGraph) (recursionLimit : nat) (n : Node)
    (messages : list Message) : Js (list Message) :=
  match recursionLimit with
  | O => throw GraphRecursionError
  | S limit =>
      match n with
      | END => ret messages
      | _ =>
          bind (visit n) (λ _,
          bind (node_update g n messages) (λ update,
          bind (messagesStateReducer messages update) (λ messages',
            run_from g limit (next_node g n messages') messages')))
      end
  end.

(** [graph.invoke({ messages })]: the input is merged into the empty state
    with the reducer, then the run starts at the node after [START]. *)
Definition graph_invoke (g : CompiledGraph) (recursionLimit : nat)
    (messages : list Message) : Js (list Message) :=
  bind (messagesStateReducer [] messages) (λ messages0,
    run_from g recursionLimit (next_node g START messages0) messages0).

End WithWorld.

(** Modelled from the spec: the session entry point that calls the graph is
    not among the sources; the spec says that when the request list is empty
    "the assistant turn's [content] is the final answer", the assistant turn
    being the last turn of the state the graph returns. *)
Definition finalAnswer (messages : list Message) : option string :=
  content <$> last messages.

End Graph.

(** ** The logger *)

Module Logger.

Inductive LogLevel := info | warn | error | debug.

(** [level.toUpperCase()] on the four levels. *)
Definition toUpperCase (level : LogLevel) : string :=
  match level with
  | info => "INFO"
  | warn => "WARN"
  | error => "ERROR"
  | debug => "DEBUG"
  end.

(** The fields of the [Logger] object. *)
Record t := {
  enabled : bool;
  timestamps : bool;
}.

(** [new Logger()]: both fields start as [true]. *)
Definition new : t := {| enabled := true; timestamps := true |}.

Definition setEnabled (this : t) (b : bool) : t :=
  {| enabled := b; timestamps := timestamps this |}.

Definition setTimestamps (this : t) (b : bool) : t :=
  {| enabled := enabled this; timestamps := b |}.

(** Whether a value counts as true in [data ? ... : ...]; [None] is
    [undefined]. *)
Definition truthy (data : option Json) : bool :=
  match data with
  | None => false
  | Some JNull => false
  | Some (JBool b) => b
  | Some (JNum n) => negb (bool_decide (n = 0))
  | Some (JStr s) => negb (bool_decide (s = EmptyString))
  | Some (JArr _) | Some (JObj _) => true
  end.

Section WithStringify.

(** [JSON.stringify(data, null, 2)] *)
Context (JSON_stringify : Json → string).

(** [formatMessage(level, message, data)]; [now] is what
    [new Date().toISOString()] gives when the call is made. *)
Definition formatMessage (this : t) (now : string) (level : LogLevel)
    (message : string) (data : option Json) : string :=
  let timestamp := if timestamps this then "[" +:+ now +:+ "] " else EmptyString in
  let levelTag := "[" +:+ toUpperCase level +:+ "]" in
  let dataStr := match data with
                 | Some d => if truthy data then " " +:+ JSON_stringify d
                             else EmptyString
                 | None => EmptyString
                 end in
  timestamp +:+ levelTag +:+ " " +:+ message +:+ dataStr.

(** [log(level, message, data)]: the console is the list of lines written
    so far. *)
Definition log (this : t) (now : string) (level : LogLevel) (message : string)
    (data : option Json) (console : list string) : list string :=
  if negb (enabled this) then console
  else console ++ [formatMessage this now level message data].

(** The methods of the logger that write. *)
Inductive Method :=
| Info | Warn | Error | Debug | Agent | Tool | Browser | Step.

(** The level and the message each method passes to [log]. *)
Definition level_of (m : Method) : LogLevel :=
  match m with
  | Warn => warn
  | Error => error
  | Debug => debug
  | Info | Agent | Tool | Browser | Step => info
  end.

Definition message_of (m : Method) (message : string) : string :=
  match m with
  | Info | Warn | Error | Debug => message
  | Agent => "🤖 AGENT: " +:+ message
  | Tool => "🔧 TOOL: " +:+ message
  | Browser => "🌐 BROWSER: " +:+ message
  | Step => "➡️  STEP: " +:+ message
  end.

(** A call on the shared [logger]: one of the two setters, or a writing
    method with its arguments and the time of the call. *)
Inductive Call :=
| SetEnabled (b : bool)
| SetTimestamps (b : bool)
| Write (m : Method) (message : string) (data : option Json) (now : string).

Definition call (c : Call) (st : t * list string) : t * list string :=
  let '(this, console) := st in
  match c with
  | SetEnabled b => (setEnabled this b, console)
  | SetTimestamps b => (setTimestamps this b, console)
  | Write m message data now =>
      (this, log this now (level_of m) (message_of m message) data console)
  end.

Definition calls (cs : list Call) (st : t * list string) : t * list string :=
  foldl (λ st c, call c st) st cs.

Definition is_write (c : Call) : bool :=
  match c with
  | Write _ _ _ _ => true
  | _ => false
  end.

End WithStringify.

End Logger.

(** ** The browser controller *)

Module BrowserController.

Section WithPlaywright.

(** Playwright: the objects it hands out and the calls the controller
    makes, each of which may reject. *)
Context {World Browser BrowserContext Page : Type}.
Context (launch : World → (Graph.Exn + Browser) * World).
Context (newContext : Browser → World → (Graph.Exn + BrowserContext) * World).
Context (newPage : BrowserContext → World → (Graph.Exn + Page) * World).
Context (page_close : Page → World → (Graph.Exn + ()) * World).
Context (browser_close : Browser → World → (Graph.Exn + ()) * World).

(** The two fields; [None] is [null]. *)
Record t := {
  browser : option Browser;
  page : option Page;
}.

Definition new : t := {| browser := None; page := None |}.

Definition not_initialized : Graph.Exn :=
  {| Graph.exn_message := Some "Browser page not initialized";
     Graph.exn_string := "Error: Browser page not initialized" |}.

(** [if (!this.page) throw ...; return this.page;] *)
Definition return_page (this : t) (w : World) : (Graph.Exn + Page) * (t * World) :=
  match page this with
  | None => (inl not_initialized, (this, w))
  | Some p => (inr p, (this, w))
  end.

(** [ensure()]: the fields are assigned as the awaited calls return, so a
    rejection leaves the assignments made before it. *)
Definition ensure (this : t) (w : World) : (Graph.Exn + Page) * (t * World) :=
  match browser this with
  | None =>
      match launch w with
      | (inl e, w1) => (inl e, (this, w1))
      | (inr b, w1) =>
          let this1 := {| browser := Some b; page := page this |} in
          match newContext b w1 with
          | (inl e, w2) => (inl e, (this1, w2))
          | (inr ctx, w2) =>
              match newPage ctx w2 with
              | (inl e, w3) => (inl e, (this1, w3))
              | (inr p, w3) =>
                  return_page {| browser := Some b; page := Some p |} w3
              end
          end
      end
  | Some _ => return_page this w
  end.

(** [close()]: [?.] skips the call on [null], [.catch(() => {})] drops a
    rejection; both fields end as [null]. *)
Definition close (this : t) (w : World) : t * World :=
  let w1 := match page this with
            | Some p => (page_close p w).2
            | None => w
            end in
  let w2 := match browser this with
            | Some b => (browser_close b w1).2
            | None => w1
            end in
  ({| browser := None; page := None |}, w2).

End WithPlaywright.

End BrowserController.

(** ** Output limits of the browser tools *)

Module Tools.

(** [slice(start, end)] of arrays and strings, with integral arguments. *)
Definition slice2 {A} (start end_ : Z) (l : list A) : list A :=
  let len := Z.of_nat (length l) in
  let from := if bool_decide (start < 0) then Z.max (len + start) 0
              else Z.min start len in
  let to := if bool_decide (end_ < 0) then Z.max (len + end_) 0
            else Z.min end_ len in
  take (Z.to_nat (to - from)) (drop (Z.to_nat from) l).

(** [browser_extract_text]:
    [typeof maxChars === "number" ? text.slice(0, maxChars) : text.slice(0, 2000)];
    [text] is [(await el.innerText()).trim()], the element's inner text after
    trimming, as the sequence of its code units. *)
Definition clipped {A} (maxChars : option Z) (text : list A) : list A :=
  match maxChars with
  | Some n => slice2 0 n text
  | None => slice2 0 2000 text
  end.

(** [browser_find_links]: [elements.slice(0, 50).map(...)], then
    [limit = maxLinks || 20] and [links.slice(0, limit)]. *)
Definition links {A B} (describe : A → nat → B) (elements : list A) : list B :=
  imap (λ i el, describe el i) (slice2 0 50 elements).

Definition limit (maxLinks : option Z) : Z :=
  match maxLinks with
  | Some n => if bool_decide (n = 0) then 20 else n
  | None => 20
  end.

Definition limitedLinks {A B} (describe : A → nat → B) (maxLinks : option Z)
    (elements : list A) : list B :=
  slice2 0 (limit maxLinks) (links describe elements).

End Tools.

(** * Properties of [slice] *)

Section slice.
Context {A : Type}.
Implicit Types l : list A.

Lemma slice_suffix start l : slice start l `suffix_of` l.
Proof. apply suffix_drop. Qed.

(** [slice(-0)] is [slice(0)]: the whole array. *)
Lemma slice_zero l : slice (- 0) l = l.
Proof.
  unfold slice. change (- 0) with 0. case_bool_decide; [lia|].
  replace (Z.to_nat (0 `min` Z.of_nat (length l))) with 0%nat by lia.
  done.
Qed.

(** For [n >= 1], [slice(-n)] keeps the last [n] elements, and everything
    when there are fewer. *)
Lemma slice_neg n l :
  1 ≤ n → slice (- n) l = drop (length l - Z.to_nat n) l.
Proof.
  intros Hn. unfold slice. rewrite bool_decide_eq_true_2 by lia.
  f_equal. lia.
Qed.

Lemma slice_neg_length n l :
  1 ≤ n → Z.of_nat (length (slice (- n) l)) = Z.min n (Z.of_nat (length l)).
Proof. intros Hn. rewrite slice_neg, length_drop by done. lia. Qed.

Lemma slice_neg_all n l :
  1 ≤ n → Z.of_nat (length l) ≤ n → slice (- n) l = l.
Proof.
  intros Hn Hl. rewrite slice_neg by done.
  replace (length l - Z.to_nat n)%nat with 0%nat by lia. done.
Qed.

(** A non-positive bound [-k] gives [slice(k)]: the first [k] elements are
    dropped and the rest is kept. *)
Lemma slice_nonneg k l :
  0 ≤ k → slice k l = drop (Z.to_nat k) l.
Proof.
  intros Hk. unfold slice. rewrite bool_decide_eq_false_2 by lia.
  destruct (decide (k ≤ Z.of_nat (length l))).
  - f_equal. lia.
  - rewrite !drop_ge by lia. done.
Qed.
End slice.

(** * The heap *)

Lemma alloc_fresh arr h : h !! (alloc arr h).1 = None.
Proof. apply not_elem_of_dom, is_fresh. Qed.

Lemma alloc_lookup_new arr h : (alloc arr h).2 !! (alloc arr h).1 = Some arr.
Proof. apply lookup_insert_eq. Qed.

Lemma alloc_lookup_old arr h l :
  is_Some (h !! l) → (alloc arr h).2 !! l = h !! l.
Proof.
  intros [v Hv]. unfold alloc; simpl. apply lookup_insert_ne.
  intros <-. pose proof (alloc_fresh arr h) as Hf. simpl in Hf. congruence.
Qed.

Lemma alloc_new_ne arr h l : is_Some (h !! l) → (alloc arr h).1 ≠ l.
Proof.
  intros [v Hv] <-. pose proof (alloc_fresh arr h). congruence.
Qed.

Lemma read_alloc_new arr h : read (alloc arr h).2 (alloc arr h).1 = arr.
Proof. unfold read. by rewrite alloc_lookup_new. Qed.

Lemma read_alloc_old arr h l :
  is_Some (h !! l) → read (alloc arr h).2 l = read h l.
Proof. intros Hl. unfold read. by rewrite alloc_lookup_old. Qed.

(** * [MemoryStore]: the store and its array *)

Section store.
Import MemoryStore.
Implicit Types (st : t * heap) (msgs old arr : list Message) (h : heap).

Lemma constructor_wf M h : wf (constructor M h).
Proof. unfold wf, constructor; simpl. rewrite lookup_insert_eq. eauto. Qed.

Lemma constructor_stored M h : stored (constructor M h) = [].
Proof. unfold stored, constructor, read; simpl. by rewrite lookup_insert_eq. Qed.

Lemma constructor_maxMessages M h :
  maxMessages (constructor M h).1 = default 50 M.
Proof. done. Qed.

(** [addMessages] on the heap does to the store's array what [appended]
    does to a list, and every other array is left as it was. *)
Lemma addMessages_spec st msgs :
  wf st →
  let st' := addMessages st.1 msgs st.2 in
  wf st'
  ∧ stored st' = appended (maxMessages st.1) (stored st) msgs
  ∧ maxMessages st'.1 = maxMessages st.1
  ∧ ∀ l, l ≠ messages st.1 → is_Some (st.2 !! l) →
         st'.2 !! l = st.2 !! l ∧ messages st'.1 ≠ l.
Proof.
  destruct st as [this h]. intros [old Hold]. simpl in *.
  assert (Hfresh : ∀ l v, l ≠ messages this → h !! l = Some v →
    fresh (dom (alter (λ arr, arr ++ msgs) (messages this) h)) ≠ l).
  { intros l v Hne Hv Heq.
    pose proof (is_fresh (dom (alter (λ arr, arr ++ msgs) (messages this) h))) as Hf.
    rewrite Heq in Hf. apply Hf, elem_of_dom.
    rewrite lookup_alter_ne by done. eauto. }
  unfold addMessages, stored, appended, wf, read. simpl.
  rewrite lookup_alter_eq, Hold. simpl.
  case_bool_decide as Hlen; simpl.
  - rewrite lookup_insert_eq. simpl. split_and!; eauto.
    intros l Hne [v Hv]. split; [|by eapply Hfresh].
    rewrite lookup_insert_ne by (by eapply Hfresh).
    by rewrite lookup_alter_ne.
  - rewrite lookup_alter_eq, Hold. simpl. split_and!; eauto.
    intros l Hne [v Hv]. split; [|done].
    by rewrite lookup_alter_ne.
Qed.

Lemma addMessages_wf st msgs : wf st → wf (addMessages st.1 msgs st.2).
Proof. intros Hwf. apply (addMessages_spec st msgs Hwf). Qed.

Lemma addMessages_stored st msgs :
  wf st →
  stored (addMessages st.1 msgs st.2)
  = appended (maxMessages st.1) (stored st) msgs.
Proof. intros Hwf. apply (addMessages_spec st msgs Hwf). Qed.

Lemma addMessages_maxMessages st msgs :
  maxMessages (addMessages st.1 msgs st.2).1 = maxMessages st.1.
Proof.
  destruct st as [this h]. unfold addMessages; simpl.
  by case_bool_decide.
Qed.

Lemma clear_wf st : wf (clear st.1 st.2).
Proof. unfold wf, clear; simpl. rewrite lookup_insert_eq. eauto. Qed.

Lemma clear_stored st : stored (clear st.1 st.2) = [].
Proof. unfold stored, clear, read; simpl. by rewrite lookup_insert_eq. Qed.

Lemma getMessages_stored st :
  wf st → stored (st.1, (getMessages st.1 st.2).2) = stored st.
Proof.
  intros Hwf. unfold stored, getMessages. cbn [fst snd]. by apply read_alloc_old.
Qed.

Lemma getRecentMessages_stored st count :
  wf st → stored (st.1, (getRecentMessages st.1 count st.2).2) = stored st.
Proof.
  intros Hwf. unfold stored, getRecentMessages. cbn [fst snd].
  by apply read_alloc_old.
Qed.

Lemma step_wf op st : wf st → wf (step op st).
Proof.
  destruct st as [this h]. intros Hwf.
  destruct op; cbn -[addMessages getMessages getRecentMessages clear].
  - by apply (addMessages_wf (this, h)).
  - unfold wf, getMessages in *. cbn [fst snd] in *. by rewrite alloc_lookup_old.
  - unfold wf, getRecentMessages in *. cbn [fst snd] in *.
    by rewrite alloc_lookup_old.
  - apply (clear_wf (this, h)).
  - done.
Qed.

Lemma run_wf ops st : wf st → wf (run ops st).
Proof.
  revert st. induction ops as [|op ops IH]; intros st Hwf; [done|].
  simpl. apply IH. by apply step_wf.
Qed.

Lemma run_app ops1 ops2 st : run (ops1 ++ ops2) st = run ops2 (run ops1 st).
Proof. unfold run. apply foldl_app. Qed.

(** What each call does to the stored sequence. *)
Lemma step_stored op st :
  wf st →
  stored (step op st) =
    match op with
    | AddMessages msgs => appended (maxMessages st.1) (stored st) msgs
    | Clear => []
    | _ => stored st
    end.
Proof.
  destruct st as [this h]. intros Hwf.
  destruct op; cbn -[addMessages getMessages getRecentMessages clear].
  - by apply (addMessages_stored (this, h)).
  - by apply (getMessages_stored (this, h)).
  - by apply (getRecentMessages_stored (this, h)).
  - apply (clear_stored (this, h)).
  - done.
Qed.

Lemma step_maxMessages op st : maxMessages (step op st).1 = maxMessages st.1.
Proof.
  destruct st as [this h].
  destruct op; cbn -[addMessages]; try done.
  apply (addMessages_maxMessages (this, h)).
Qed.

Lemma run_maxMessages ops st : maxMessages (run ops st).1 = maxMessages st.1.
Proof.
  revert st. induction ops as [|op ops IH]; intros st; [done|].
  simpl. rewrite IH. apply step_maxMessages.
Qed.
End store.

(** * Eviction on lists *)

Section eviction.
Import MemoryStore.
Implicit Types (msgs old arr l : list Message) (M : Z).

Lemma filter_all {A} (P : A → Prop) `{!∀ x, Decision (P x)} (l : list A) :
  Forall P l → filter P l = l.
Proof.
  induction 1 as [|x l Hx _ IH]; [done|].
  by rewrite filter_cons_True, IH.
Qed.

Lemma filter_none {A} (P : A → Prop) `{!∀ x, Decision (P x)} (l : list A) :
  Forall (λ x, ¬ P x) l → filter P l = [].
Proof.
  induction 1 as [|x l Hx _ IH]; [done|].
  by rewrite filter_cons_False.
Qed.

Lemma Forall_filter_self {A} (P : A → Prop) `{!∀ x, Decision (P x)} (l : list A) :
  Forall P (filter P l).
Proof. apply Forall_forall. intros x Hx. by apply list_elem_of_filter in Hx as [? _]. Qed.

Lemma instructions_all l : Forall is_system (instructions l).
Proof. apply Forall_filter_self. Qed.

Lemma others_none l : Forall (λ m, ¬ is_system m) (others l).
Proof. apply (Forall_filter_self (λ m, _getType m ≠ system)). Qed.

Lemma length_instructions_others l :
  length l = (length (instructions l) + length (others l))%nat.
Proof.
  induction l as [|m l IH]; [done|].
  unfold instructions, others in *. rewrite !filter_cons.
  destruct (decide (_getType m = system)), (decide (_getType m ≠ system));
    simpl; try lia; done.
Qed.

Lemma evicted_unfold M arr :
  evicted M arr = instructions arr ++ slice (- M) (others arr).
Proof. done. Qed.

Lemma instructions_evicted M arr :
  instructions (evicted M arr) = instructions arr.
Proof.
  rewrite evicted_unfold. unfold instructions at 1. rewrite filter_app.
  rewrite (filter_all _ (instructions arr)) by apply instructions_all.
  rewrite (filter_none _ (slice _ _)); [by rewrite app_nil_r|].
  apply Forall_drop, others_none.
Qed.

Lemma others_evicted M arr :
  others (evicted M arr) = slice (- M) (others arr).
Proof.
  rewrite evicted_unfold. unfold others at 1. rewrite filter_app.
  rewrite (filter_none _ (instructions arr)).
  - simpl. apply filter_all, Forall_drop, others_none.
  - eapply Forall_impl; [apply instructions_all|]. intros m Hm Hn. by apply Hn.
Qed.

(** No instruction turn is ever dropped by an append. *)
Lemma instructions_appended M old msgs :
  instructions (appended M old msgs) = instructions old ++ instructions msgs.
Proof.
  unfold appended. simpl. case_bool_decide.
  - rewrite instructions_evicted. apply filter_app.
  - apply filter_app.
Qed.

(** The other turns that survive an append are the most recent ones. *)
Lemma others_appended M old msgs :
  others (appended M old msgs) `suffix_of` others old ++ others msgs.
Proof.
  unfold appended. simpl. case_bool_decide.
  - rewrite others_evicted. unfold others. rewrite filter_app. apply slice_suffix.
  - unfold others. by rewrite filter_app.
Qed.

(** With a bound of at least one, at most that many other turns survive. *)
Lemma others_appended_length M old msgs :
  1 ≤ M → Z.of_nat (length (others (appended M old msgs))) ≤ M.
Proof.
  intros HM. unfold appended. simpl. case_bool_decide as Hlen.
  - rewrite others_evicted, slice_neg_length by done. lia.
  - pose proof (length_filter (λ m, _getType m ≠ system) (old ++ msgs)).
    unfold others. lia.
Qed.

(** With a bound of zero nothing is evicted: the turns are only
    regrouped. *)
Lemma evicted_zero arr : evicted 0 arr = instructions arr ++ others arr.
Proof. rewrite evicted_unfold. by rewrite slice_zero. Qed.

(** With a negative bound [-k], the [k] oldest other turns are dropped and
    all later ones are kept. *)
Lemma evicted_negative k arr :
  0 ≤ k → evicted (- k) arr = instructions arr ++ drop (Z.to_nat k) (others arr).
Proof.
  intros Hk. rewrite evicted_unfold. rewrite Z.opp_involutive.
  by rewrite slice_nonneg.
Qed.
End eviction.

(** * The history cap *)

Section cap_claims.
Import MemoryStore.
Implicit Types (st : t * heap) (msgs : list Message).

Lemma addMessages_cap st msgs :
  wf st → 1 ≤ maxMessages st.1 →
  let st' := addMessages st.1 msgs st.2 in
  Z.of_nat (length (others (stored st'))) ≤ maxMessages st.1
  ∧ getMessageCount st'.1 st'.2
    = (length (instructions (stored st')) + length (others (stored st')))%nat.
Proof.
  intros Hwf HM. simpl. split.
  - rewrite addMessages_stored by done. by apply others_appended_length.
  - apply length_instructions_others.
Qed.

(** C1, as stated, fails.  With [maxMessages = 1] and a batch holding two
    instruction turns and one user turn, all three turns are retained, so
    [size() - 1] is 2 and exceeds the bound.  With [maxMessages = -1] the
    bound is negative and no count can stay below it. *)
Lemma history_cap_counterexample :
  (let st := run [AddMessages [msg system "s1"; msg system "s2"; msg human "u"]]
                 (constructor (Some 1) ∅) in
   ¬ (Z.of_nat (getMessageCount st.1 st.2)
      - (if bool_decide (Exists is_system (stored st)) then 1 else 0)
      ≤ maxMessages st.1))
  ∧ (let st := run [AddMessages []] (constructor (Some (-1)) ∅) in
     ¬ (Z.of_nat (getMessageCount st.1 st.2)
        - (if bool_decide (Exists is_system (stored st)) then 1 else 0)
        ≤ maxMessages st.1)).
Proof. split; intros st H; vm_compute in H; by apply H. Qed.

(** C1, amended: for a store whose maximum [M] is at least 1 and every
    sequence of appends, after each append the number of retained
    non-instruction turns is at most [M]; that number is [size()] minus the
    number of retained instruction turns, of which there can be several. *)
Theorem history_cap st batches :
  wf st → 1 ≤ maxMessages st.1 →
  Forall (λ st',
      Z.of_nat (length (others (stored st'))) ≤ maxMessages st.1
      ∧ getMessageCount st'.1 st'.2
        = (length (instructions (stored st')) + length (others (stored st')))%nat)
    (trace st batches).
Proof.
  revert st. induction batches as [|msgs batches IH]; intros st Hwf HM.
  - constructor.
  - cbn [trace]. constructor.
    + by apply addMessages_cap.
    + rewrite <- (addMessages_maxMessages st msgs).
      apply IH.
      * by apply addMessages_wf.
      * by rewrite addMessages_maxMessages.
Qed.

Lemma history_cap_witness :
  let st := constructor (Some 3) ∅ in
  let batches := [[msg system "sys"]; [msg human "u1"]; [msg ai "a1"];
                  [msg human "u2"]; [msg ai "a2"]; [msg human "u3"]] in
  wf st ∧ 1 ≤ maxMessages st.1
  ∧ Forall (λ st',
      Z.of_nat (length (others (stored st'))) ≤ maxMessages st.1
      ∧ getMessageCount st'.1 st'.2
        = (length (instructions (stored st')) + length (others (stored st')))%nat)
    (trace st batches).
Proof.
  intros st batches.
  assert (Hwf : wf st) by (eexists; vm_compute; reflexivity).
  assert (HM : 1 ≤ maxMessages st.1) by (vm_compute; discriminate).
  split; [exact Hwf|]. split; [exact HM|].
  exact (history_cap st batches Hwf HM).
Defined.

(** C7: with [maxMessages = 0] an append evicts nothing, and with
    [maxMessages = -1] only the oldest non-instruction turn goes; the claim
    expects every non-instruction turn to be evicted. *)
Lemma nonpositive_bound_retains_turns :
  stored (run [AddMessages [msg human "a"]] (constructor (Some 0) ∅))
  = [msg human "a"]
  ∧ stored (run [AddMessages [msg system "s"; msg human "a"; msg ai "b"]]
                (constructor (Some (-1)) ∅))
    = [msg system "s"; msg ai "b"].
Proof. split; vm_compute; reflexivity. Qed.

(** What the code does for every store with [maxMessages = 0]. *)
Lemma addMessages_zero st msgs :
  wf st → maxMessages st.1 = 0 → stored st ++ msgs ≠ [] →
  stored (addMessages st.1 msgs st.2)
  = instructions (stored st ++ msgs) ++ others (stored st ++ msgs).
Proof.
  intros Hwf HM Hne. rewrite addMessages_stored by done.
  unfold appended. rewrite HM. simpl.
  rewrite bool_decide_eq_true_2; [apply evicted_zero|].
  destruct (stored st ++ msgs); [done|simpl; lia].
Qed.

(** C10: an append after which the array is longer than [maxMessages]
    leaves all instruction turns of the array, wherever they stood, at the
    front, followed by turns none of which is an instruction; any other
    append leaves the old sequence followed by the new turns. *)
Theorem eviction_reordering st msgs :
  wf st →
  let arr := stored st ++ msgs in
  let st' := addMessages st.1 msgs st.2 in
  (maxMessages st.1 < Z.of_nat (length arr) →
     stored st' = instructions arr ++ slice (- maxMessages st.1) (others arr)
     ∧ Forall (λ m, ¬ is_system m) (slice (- maxMessages st.1) (others arr)))
  ∧ (¬ maxMessages st.1 < Z.of_nat (length arr) → stored st' = arr).
Proof.
  intros Hwf arr st'. subst st'. rewrite addMessages_stored by done.
  unfold appended. fold arr. cbn zeta. split; intros Hlen.
  - rewrite bool_decide_eq_true_2 by done. split; [done|].
    apply Forall_drop, others_none.
  - by rewrite bool_decide_eq_false_2.
Qed.

Lemma eviction_reordering_witness :
  let st := run [AddMessages [msg human "a"; msg system "s"]]
                (constructor (Some 2) ∅) in
  let msgs := [msg ai "b"] in
  let arr := stored st ++ msgs in
  let st' := addMessages st.1 msgs st.2 in
  wf st
  ∧ (maxMessages st.1 < Z.of_nat (length arr) →
       stored st' = instructions arr ++ slice (- maxMessages st.1) (others arr)
       ∧ Forall (λ m, ¬ is_system m) (slice (- maxMessages st.1) (others arr)))
  ∧ (¬ maxMessages st.1 < Z.of_nat (length arr) → stored st' = arr).
Proof.
  intros st msgs arr st'.
  assert (Hwf : wf st) by (eexists; vm_compute; reflexivity).
  split; [exact Hwf|].
  exact (eviction_reordering st msgs Hwf).
Defined.
End cap_claims.

(** * Instruction retention, snapshots and tails *)

Section snapshots.
Import MemoryStore.
Implicit Types (st : t * heap) (msgs : list Message) (ops : list Op).

Lemma getMessages_read st :
  read (getMessages st.1 st.2).2 (getMessages st.1 st.2).1 = stored st.
Proof. unfold getMessages. apply read_alloc_new. Qed.

Lemma getRecentMessages_read st count :
  read (getRecentMessages st.1 count st.2).2 (getRecentMessages st.1 count st.2).1
  = slice (- count) (stored st).
Proof. unfold getRecentMessages. apply read_alloc_new. Qed.

(** Calls other than [clear] never lose an instruction turn. *)
Lemma run_keeps_instructions ops st (t : Message) :
  wf st → Clear ∉ ops →
  t ∈ instructions (stored st) → t ∈ instructions (stored (run ops st)).
Proof.
  revert st. induction ops as [|op ops IH]; intros st Hwf Hclear Ht; [done|].
  apply not_elem_of_cons in Hclear as [Hop Hclear].
  simpl. apply IH; [by apply step_wf|done|].
  rewrite step_stored by done. destruct op; try done.
  rewrite instructions_appended. apply elem_of_app. by left.
Qed.

(** C2: once an instruction turn has been appended, every later snapshot
    contains it, whatever calls are made in between, as long as [clear] is
    not among them. *)
Theorem instruction_retention st msgs ops (t : Message) :
  wf st → t ∈ msgs → _getType t = system → Clear ∉ ops →
  let st' := run ops (addMessages st.1 msgs st.2) in
  t ∈ read (getMessages st'.1 st'.2).2 (getMessages st'.1 st'.2).1.
Proof.
  intros Hwf Ht Hsys Hclear st'. rewrite getMessages_read.
  assert (Hin : t ∈ instructions (stored st')).
  { apply run_keeps_instructions; [by apply addMessages_wf|done|].
    rewrite addMessages_stored, instructions_appended by done.
    apply elem_of_app. right. by apply list_elem_of_filter. }
  by apply list_elem_of_filter in Hin as [_ ?].
Qed.

Lemma instruction_retention_witness :
  let st := constructor (Some 2) ∅ in
  let t := msg system "be brief" in
  let msgs := [t; msg human "hello"] in
  let ops := [AddMessages [msg ai "a1"; msg human "u2"]; GetRecentMessages 1;
              AddMessages [msg ai "a2"]; GetMessageCount; GetMessages] in
  let st' := run ops (addMessages st.1 msgs st.2) in
  t ∈ read (getMessages st'.1 st'.2).2 (getMessages st'.1 st'.2).1.
Proof.
  intros st t msgs ops.
  apply (instruction_retention st msgs ops t).
  - eexists; vm_compute; reflexivity.
  - apply list_elem_of_here.
  - reflexivity.
  - intros Hin. repeat (apply elem_of_cons in Hin as [Hin|Hin]; [discriminate|]).
    by apply elem_of_nil in Hin.
Defined.

(** The store's array and an array handed out earlier stay apart. *)
Lemma step_preserves_array op st (r : loc) (v : list Message) :
  wf st → messages st.1 ≠ r → st.2 !! r = Some v →
  messages (step op st).1 ≠ r ∧ (step op st).2 !! r = Some v.
Proof.
  destruct st as [this h]. intros Hwf Hne Hr. cbn [fst snd] in *.
  destruct op; cbn -[addMessages getMessages getRecentMessages clear alloc].
  - destruct (addMessages_spec (this, h) msgs Hwf) as (_ & _ & _ & Hother).
    destruct (Hother r) as [Hl Hm]; [done|by eexists|].
    split; [done|]. cbn [fst snd] in Hl. by rewrite Hl.
  - split; [done|]. unfold getMessages. by rewrite alloc_lookup_old.
  - split; [done|]. unfold getRecentMessages. by rewrite alloc_lookup_old.
  - unfold clear.
    change (messages (let '(l, h') := alloc [] h in
                      ({| messages := l; maxMessages := maxMessages this |}, h')).1)
      with (alloc [] h).1.
    change ((let '(l, h') := alloc [] h in
             ({| messages := l; maxMessages := maxMessages this |}, h')).2)
      with (alloc [] h).2.
    split; [by apply alloc_new_ne|]. by rewrite alloc_lookup_old.
  - done.
Qed.

Lemma run_preserves_array ops st (r : loc) (v : list Message) :
  wf st → messages st.1 ≠ r → st.2 !! r = Some v →
  (run ops st).2 !! r = Some v.
Proof.
  revert st. induction ops as [|op ops IH]; intros st Hwf Hne Hr; [done|].
  simpl. destruct (step_preserves_array op st r v) as [Hne' Hr']; try done.
  apply IH; [by apply step_wf|done|done].
Qed.

(** The stored sequence against the turns handed in since the last
    [clear]: same instruction turns, and a suffix of the other turns. *)
Lemma run_since_clear ops st (acc : list Message) :
  wf st →
  instructions (stored st) = instructions acc →
  others (stored st) `suffix_of` others acc →
  instructions (stored (run ops st)) = instructions (since_clear acc ops)
  ∧ others (stored (run ops st)) `suffix_of` others (since_clear acc ops).
Proof.
  revert st acc.
  induction ops as [|op ops IH]; intros st acc Hwf Hi Ho; [done|].
  simpl. apply IH; [by apply step_wf| |];
    rewrite step_stored by done; destruct op; try done.
  - rewrite instructions_appended, Hi. unfold instructions. by rewrite filter_app.
  - etrans; [apply others_appended|].
    unfold others at 3. rewrite filter_app. by apply suffix_app.
Qed.
End snapshots.

Section snapshot_claims.
Import MemoryStore.
Implicit Types (st : t * heap) (msgs : list Message) (ops : list Op).

(** C8, as stated, fails.  In a store with the default bound, after
    [addMessages([human, system])] no eviction has run and the snapshot is
    [[human, system]]: the instruction turn is not first. *)
Lemma snapshot_counterexample :
  let st := run [AddMessages [msg human "hi"; msg system "be brief"]]
                (constructor None ∅) in
  let snap := read (getMessages st.1 st.2).2 (getMessages st.1 st.2).1 in
  snap ≠ instructions snap ++ others snap.
Proof. intros st snap H. vm_compute in H. discriminate H. Qed.

(** C8, amended: in every state reached from a new store, [getMessages]
    returns a new array holding the stored sequence; that sequence has all
    instruction turns handed in since the last [clear], in their original
    order, and the most recent of the other turns, in their original
    order; calls made on the store afterwards do not change the returned
    array.  Instruction turns are first in a snapshot taken right after an
    append that ran the eviction; after any other append the snapshot is
    the old sequence followed by the new turns. *)
Theorem snapshot_contract (M : option Z) (h0 : heap) (pre post : list Op)
    (msgs : list Message) :
  let st := run pre (constructor M h0) in
  let r := (getMessages st.1 st.2).1 in
  let h' := (getMessages st.1 st.2).2 in
  let snap := read h' r in
  let st1 := addMessages st.1 msgs st.2 in
  snap = stored st
  ∧ r ≠ messages st.1
  ∧ instructions snap = instructions (since_clear [] pre)
  ∧ others snap `suffix_of` others (since_clear [] pre)
  ∧ read (run post (st.1, h')).2 r = snap
  ∧ read (getMessages st1.1 st1.2).2 (getMessages st1.1 st1.2).1
    = if bool_decide (maxMessages st.1 < Z.of_nat (length (stored st ++ msgs)))
      then instructions (stored st ++ msgs)
           ++ slice (- maxMessages st.1) (others (stored st ++ msgs))
      else stored st ++ msgs.
Proof.
  intros st r h' snap st1.
  assert (Hwf : wf st) by apply run_wf, constructor_wf.
  assert (Hsnap : snap = stored st) by apply getMessages_read.
  destruct (run_since_clear pre (constructor M h0) []) as [Hi Ho].
  { apply constructor_wf. }
  { by rewrite constructor_stored. }
  { by rewrite constructor_stored. }
  split_and!.
  - done.
  - by apply alloc_new_ne.
  - by rewrite Hsnap.
  - by rewrite Hsnap.
  - unfold read at 1.
    rewrite (run_preserves_array post (st.1, h') r snap); [done| | |].
    + unfold wf, h', getMessages. cbn [fst snd]. by rewrite alloc_lookup_old.
    + cbn [fst snd]. intros Heq. by apply (alloc_new_ne (read st.2 (messages st.1)) st.2 (messages st.1)).
    + cbn [fst snd]. unfold snap, read, h', r, getMessages.
      by rewrite alloc_lookup_new.
  - rewrite getMessages_read. unfold st1. by rewrite addMessages_stored.
Qed.

(** C9: on a store holding two turns, [getRecentMessages(0)] returns both
    of them; the last 0 turns are none. *)
Lemma tail_zero_returns_everything :
  let st := run [AddMessages [msg human "a"; msg ai "b"]] (constructor None ∅) in
  read (getRecentMessages st.1 0 st.2).2 (getRecentMessages st.1 0 st.2).1
  = [msg human "a"; msg ai "b"].
Proof. vm_compute. reflexivity. Qed.

(** [getRecentMessages(0)] returns the whole sequence in every state. *)
Lemma getRecentMessages_zero st :
  read (getRecentMessages st.1 0 st.2).2 (getRecentMessages st.1 0 st.2).1
  = stored st.
Proof. rewrite getRecentMessages_read. apply slice_zero. Qed.

(** For [count >= 1], [getRecentMessages(count)] returns the last [count]
    turns of the stored sequence, instruction turns or not, and the whole
    sequence when [count] is at least its length. *)
Lemma getRecentMessages_last st count :
  1 ≤ count →
  let tail := read (getRecentMessages st.1 count st.2).2
                   (getRecentMessages st.1 count st.2).1 in
  tail = drop (length (stored st) - Z.to_nat count) (stored st)
  ∧ Z.of_nat (length tail) = Z.min count (Z.of_nat (getMessageCount st.1 st.2))
  ∧ (Z.of_nat (getMessageCount st.1 st.2) ≤ count → tail = stored st).
Proof.
  intros Hc tail. subst tail. rewrite getRecentMessages_read. split_and!.
  - by apply slice_neg.
  - by apply slice_neg_length.
  - intros Hle. by apply slice_neg_all.
Qed.
End snapshot_claims.

(** * Strings *)

Lemma startsWith_spec p s :
  Graph.startsWith p s = true ↔ ∃ post, s = p +:+ post.
Proof.
  revert s. induction p as [|a p IH]; intros s; simpl.
  - split; [eauto|done].
  - destruct s as [|b s]; simpl.
    + split; [done|]. by intros [post ?].
    + rewrite andb_true_iff, bool_decide_eq_true, IH. split.
      * intros [-> [post ->]]. eauto.
      * intros [post Heq]. injection Heq as -> ->. eauto.
Qed.

Lemma includes_spec sub s :
  Graph.includes sub s = true ↔ ∃ pre post, s = pre +:+ sub +:+ post.
Proof.
  induction s as [|b s IH]; simpl.
  - rewrite orb_false_r, startsWith_spec. split.
    + intros [post ->]. by exists EmptyString, post.
    + intros [pre [post Heq]]. destruct pre; [by exists post|done].
  - rewrite orb_true_iff, startsWith_spec, IH. split.
    + intros [[post ->]|[pre [post ->]]].
      * by exists EmptyString, post.
      * by exists (String b pre), post.
    + intros [pre [post Heq]]. destruct pre as [|a pre]; simpl in Heq.
      * left. by exists post.
      * right. injection Heq as -> ->. by exists pre, post.
Qed.

(** * The tools node *)

Section dispatch.
Import Graph.
Context {World : Type} (JSON_stringify : Json → string).
Implicit Types (tools : list (@StructuredTool World)) (call : ToolCall)
  (σ : @Runtime World) (messages : list Message).


Lemma find_none_unknown tools (name : string) :
  Forall (λ t, tool_name t ≠ name) tools →
  List.find (λ x, String.eqb (tool_name x) name) tools = None.
Proof.
  induction 1 as [|t tools Ht _ IH]; [done|].
  simpl. destruct (String.eqb_spec (tool_name t) name); [done|]. exact IH.
Qed.




End dispatch.

Section dispatch_claims.
Import Graph.
Context {World : Type} (JSON_stringify : Json → string).
Implicit Types (tools : list (@StructuredTool World)) (call : ToolCall)
  (σ : @Runtime World) (messages : list Message).




(** C6, amended: a request whose name is in no catalog entry invokes
    nothing and leaves the world as it was; it yields exactly one result,
    carrying the request's id and name, whose content is
    [ERROR: unknown tool "<name>"], which contains "unknown tool". *)
Theorem unknown_tool_result tools call σ messages :
  Forall (λ t, tool_name t ≠ tc_name call) tools →
  last_tool_calls messages = [call] →
  let r := {| role := "tool"; tr_name := tc_name call;
              tr_content := "ERROR: unknown tool " +:+ dquote +:+ tc_name call
                            +:+ dquote;
              tr_tool_call_id := tc_id call |} in
  run_call JSON_stringify tools call σ = (inr r, σ)
  ∧ createToolsNode JSON_stringify tools messages σ = (inr [r], σ)
  ∧ includes "unknown tool" (tr_content r) = true.
Proof.
  intros Hunknown Hlast r.
  assert (Hrun : run_call JSON_stringify tools call σ = (inr r, σ)).
  { unfold run_call. by rewrite (find_none_unknown tools _ Hunknown). }
  split_and!.
  - done.
  - unfold createToolsNode. rewrite Hlast. simpl.
    unfold bind. by rewrite Hrun.
  - apply includes_spec.
    exists "ERROR: ", (" " +:+ dquote +:+ tc_name call +:+ dquote). reflexivity.
Qed.
End dispatch_claims.

(** C6, as stated, fails.  For the request [{name: "unknown_tool", id: "x1"}]
    and a catalog without that name the result's content is
    [ERROR: unknown tool "unknown_tool"]; "unknown action" does not occur in
    it. *)
Lemma unknown_action_counterexample :
  let call := {| tc_name := "unknown_tool"; tc_args := []; tc_id := "x1" |} in
  let tools : list (@Graph.StructuredTool ()) :=
    [{| Graph.tool_name := "browser_goto";
        Graph.tool_invoke := λ _ w, (inr (JStr "Navigated"), w) |}] in
  let σ := {| Graph.world := (); Graph.invoked := []; Graph.visited := [] |} in
  ∃ r, Graph.run_call (λ _, "null") tools call σ = (inr r, σ)
       ∧ ¬ ∃ pre post, Graph.tr_content r = pre +:+ "unknown action" +:+ post.
Proof.
  intros call tools σ. eexists. split; [reflexivity|].
  intros Hin%includes_spec. vm_compute in Hin. discriminate Hin.
Qed.

Lemma unknown_tool_result_witness :
  let call := {| tc_name := "unknown_tool"; tc_args := []; tc_id := "x1" |} in
  let tools : list (@Graph.StructuredTool ()) :=
    [{| Graph.tool_name := "browser_goto";
        Graph.tool_invoke := λ _ w, (inr (JStr "Navigated"), w) |}] in
  let σ := {| Graph.world := (); Graph.invoked := []; Graph.visited := [] |} in
  let messages := [{| _getType := ai; content := EmptyString;
                      tool_calls := Some [call]; name := None;
                      tool_call_id := None; msg_id := None |}] in
  let r := {| Graph.role := "tool"; Graph.tr_name := "unknown_tool";
              Graph.tr_content := "ERROR: unknown tool " +:+ Graph.dquote
                                  +:+ "unknown_tool" +:+ Graph.dquote;
              Graph.tr_tool_call_id := "x1" |} in
  Graph.run_call (λ _, "null") tools call σ = (inr r, σ)
  ∧ Graph.createToolsNode (λ _, "null") tools messages σ = (inr [r], σ)
  ∧ Graph.includes "unknown tool" (Graph.tr_content r) = true.
Proof.
  intros call tools σ messages r.
  apply (unknown_tool_result (λ _, "null") tools call σ messages).
  - repeat constructor. simpl. discriminate.
  - reflexivity.
Defined.

(** * The loop *)

Section loop.
Import Graph.
Context {World : Type} (JSON_stringify : Json → string).
Context (v4 : World → string * World) (GraphRecursionError : Exn).
Implicit Types (tools : list (@StructuredTool World)) (σ : @Runtime World)
  (messages : list Message)
  (llm : list (@StructuredTool World) → list Message → World
         → (Exn + Message) * World).

Lemma last_tool_calls_snoc messages (m : Message) :
  last_tool_calls (messages ++ [m]) = default [] (tool_calls m).
Proof. unfold last_tool_calls. by rewrite last_snoc. Qed.

(** Messages that have an id are left as they are by the reducer's first
    loops, and no uuid is drawn. *)
Lemma assign_ids_identified messages σ :
  Forall (λ m, is_Some (msg_id m)) messages →
  assign_ids v4 messages σ = (inr messages, σ).
Proof.
  intros Hids. revert σ. induction Hids as [|m ms [i Hi] _ IH]; intros σ; [done|].
  cbn [assign_ids]. unfold bind, assign_id. by rewrite Hi, IH.
Qed.

Lemma assign_id_inv (m m' : Message) σ σ' :
  assign_id v4 m σ = (inr m', σ') →
  _getType m' = _getType m ∧ content m' = content m
  ∧ tool_calls m' = tool_calls m
  ∧ invoked σ' = invoked σ ∧ visited σ' = visited σ.
Proof.
  unfold assign_id. destruct (msg_id m).
  - by intros [= <- <-].
  - destruct (v4 (world σ)) as [u w]. by intros [= <- <-].
Qed.

Lemma foldl_insert_fresh (kvs : list (option string * nat))
    (acc : gmap (option string) nat) (k : option string) :
  k ∉ kvs.*1 →
  foldl (λ byId kv, <[kv.1 := kv.2]> byId) acc kvs !! k = acc !! k.
Proof.
  revert acc. induction kvs as [|[k' i] kvs IH]; intros acc Hk; [done|].
  rewrite fmap_cons in Hk. apply not_elem_of_cons in Hk as [Hne Hk].
  simpl. rewrite IH by done. by apply lookup_insert_ne.
Qed.

(** An id that no message of the state carries is not in the reducer's
    map. *)
Lemma index_by_id_fresh messages (k : option string) :
  k ∉ msg_id <$> messages → index_by_id messages !! k = None.
Proof.
  intros Hk. unfold index_by_id. rewrite foldl_insert_fresh; [done|].
  by rewrite fmap_imap, (imap_const msg_id).
Qed.

(** The reducer pushes a message whose id is new to the state. *)
Lemma reducer_push messages (m m' : Message) σ σ' :
  Forall (λ m, is_Some (msg_id m)) messages →
  assign_id v4 m σ = (inr m', σ') →
  msg_id m' ∉ msg_id <$> messages →
  messagesStateReducer v4 messages [m] σ = (inr (messages ++ [m']), σ').
Proof.
  intros Hids Hassign Hfresh. unfold messagesStateReducer, bind.
  rewrite assign_ids_identified by done. cbn [assign_ids]. unfold bind.
  rewrite Hassign. cbn [ret foldl merge_one].
  by rewrite index_by_id_fresh.
Qed.

(** C5, amended: when the model's response requests no tool and its id,
    after the reducer has given it one if it had none, is not the id of a
    message already in the state, and the recursion limit leaves two steps,
    [shouldContinue] routes to [END]; the run from the agent node returns
    the state with that response appended and nothing else, having run the
    agent node only and invoked no tool; the tools node, were it run on that
    state, would return no result; the last turn of the returned state is
    the response, and the final answer is its content as it is. *)
Theorem empty_request_list_ends_cycle llm tools systemMessage messages σ
    (response response' : Message) (w : World) σ' (limit : nat) :
  llm tools (systemMessage :: messages) (world σ) = (inr response, w) →
  default [] (tool_calls response) = [] →
  Forall (λ m, is_Some (msg_id m)) messages →
  assign_id v4 response {| world := w; invoked := invoked σ;
                           visited := visited σ ++ [agent] |}
  = (inr response', σ') →
  msg_id response' ∉ msg_id <$> messages →
  let g := createGraph JSON_stringify llm tools systemMessage in
  let messages' := messages ++ [response'] in
  shouldContinue messages' = END
  ∧ run_from v4 GraphRecursionError g (S (S limit)) agent messages σ
    = (inr messages', σ')
  ∧ invoked σ' = invoked σ
  ∧ visited σ' = visited σ ++ [agent]
  ∧ createToolsNode JSON_stringify tools messages' σ' = (inr [], σ')
  ∧ last messages' = Some response'
  ∧ content response' = content response
  ∧ finalAnswer messages' = Some (content response).
Proof.
  intros Hllm Hnone Hids Hassign Hfresh g messages'.
  destruct (assign_id_inv _ _ _ _ Hassign) as (_ & Hcontent & Hcalls & Hinv & Hvis).
  assert (Hlast : last_tool_calls messages' = []).
  { unfold messages'. by rewrite last_tool_calls_snoc, Hcalls. }
  assert (Hroute : shouldContinue messages' = END).
  { unfold shouldContinue. by rewrite Hlast. }
  split_and!; try done.
  - cbn [run_from]. unfold bind at 1 2, visit, g.
    cbn [createGraph node_update next_node]. unfold createAgentNode.
    cbn [world invoked visited]. rewrite Hllm. unfold bind.
    rewrite (reducer_push messages response response' _ σ' Hids Hassign Hfresh).
    fold messages'. by rewrite Hroute.
  - unfold createToolsNode. by rewrite Hlast.
  - apply last_snoc.
  - unfold finalAnswer, messages'. by rewrite last_snoc, <- Hcontent.
Qed.
End loop.

(** C5, as stated, fails in two ways.  First, the reducer replaces a message
    of the state that has the response's id: on a state that ends with an
    assistant turn requesting tool [b], a response with no requested action
    and the id of the first turn takes that turn's place, the last turn
    still requests [b], and the run goes on to the tools node, invokes [b]
    and ends with the tool's text as last turn.  Second, with a recursion
    limit of 1 the run is rejected although the only response requests no
    action. *)
Lemma empty_request_list_counterexample :
  let response := {| _getType := ai; content := "answer"; tool_calls := None;
                     name := None; tool_call_id := None; msg_id := Some "x" |} in
  let llm : list (@Graph.StructuredTool nat) → list Message → nat
            → (Graph.Exn + Message) * nat :=
    λ _ _ w, (inr response, w) in
  let working : @Graph.StructuredTool nat :=
    {| Graph.tool_name := "b";
       Graph.tool_invoke := λ _ w, (inr (JStr "ok"), w) |} in
  let v4 : nat → string * nat := λ w, ("uuid", S w) in
  let limit_reached := {| Graph.exn_message := None;
                          Graph.exn_string := "GraphRecursionError" |} in
  let g := Graph.createGraph (λ _, "null") llm [working] (msg system "sys") in
  let σ := {| Graph.world := 0%nat; Graph.invoked := []; Graph.visited := [] |} in
  let state := [{| _getType := ai; content := "earlier"; tool_calls := None;
                   name := None; tool_call_id := None; msg_id := Some "x" |};
                {| _getType := ai; content := EmptyString;
                   tool_calls := Some [{| tc_name := "b"; tc_args := [];
                                          tc_id := "i1" |}];
                   name := None; tool_call_id := None; msg_id := Some "y" |}] in
  default [] (tool_calls response) = []
  ∧ (∃ ms σ', Graph.graph_invoke v4 limit_reached g 25 state σ = (inr ms, σ')
              ∧ Graph.visited σ' = [Graph.agent; Graph.tools; Graph.agent]
              ∧ Graph.invoked σ' = [("b", [])]
              ∧ Graph.finalAnswer ms = Some "ok")
  ∧ (Graph.graph_invoke v4 limit_reached g 1 [msg human "question"] σ).1
    = inl limit_reached.
Proof.
  intros response llm working v4 limit_reached g σ state.
  split; [reflexivity|]. split.
  - eexists _, _. split; [vm_compute; reflexivity|].
    split_and!; reflexivity.
  - vm_compute. reflexivity.
Qed.

Lemma empty_request_list_ends_cycle_witness :
  let llm : list (@Graph.StructuredTool nat) → list Message → nat
            → (Graph.Exn + Message) * nat :=
    λ _ _ w, (inr (msg ai "The page title is Example Domain."), S w) in
  let tools : list (@Graph.StructuredTool nat) :=
    [{| Graph.tool_name := "browser_goto";
        Graph.tool_invoke := λ _ w, (inr (JStr "Navigated"), S w) |}] in
  let v4 : nat → string * nat := λ w, ("uuid", S w) in
  let limit_reached := {| Graph.exn_message := None;
                          Graph.exn_string := "GraphRecursionError" |} in
  let σ := {| Graph.world := 0%nat; Graph.invoked := []; Graph.visited := [] |} in
  let messages := [Graph.set_id (msg human "What is the title of example.com?") "h1"] in
  let response := msg ai "The page title is Example Domain." in
  let response' := Graph.set_id response "uuid" in
  let g := Graph.createGraph (λ _, "null") llm tools (msg system "You are an agent.") in
  let σ' := {| Graph.world := 2%nat; Graph.invoked := [];
               Graph.visited := [Graph.agent] |} in
  Graph.shouldContinue (messages ++ [response']) = Graph.END
  ∧ Graph.run_from v4 limit_reached g 25 Graph.agent messages σ
    = (inr (messages ++ [response']), σ')
  ∧ Graph.invoked σ' = Graph.invoked σ
  ∧ Graph.visited σ' = Graph.visited σ ++ [Graph.agent]
  ∧ Graph.createToolsNode (λ _, "null") tools (messages ++ [response']) σ' = (inr [], σ')
  ∧ last (messages ++ [response']) = Some response'
  ∧ content response' = content response
  ∧ Graph.finalAnswer (messages ++ [response']) = Some (content response).
Proof.
  intros llm tools v4 limit_reached σ messages response response' g σ'.
  apply (empty_request_list_ends_cycle (λ _, "null") v4 limit_reached llm tools
           (msg system "You are an agent.") messages σ response response'
           1%nat σ' 23%nat).
  - reflexivity.
  - reflexivity.
  - repeat constructor. by eexists.
  - reflexivity.
  - intros Hin. apply list_elem_of_singleton in Hin. discriminate Hin.
Defined.

(** * Scenarios *)

(** A bound of 3, an instruction turn, then five turns one by one: the
    snapshot is the instruction turn and the last three turns. *)
Example scenario_bound_three :
  let st := MemoryStore.run
              (MemoryStore.AddMessages <$>
                 [[msg system "sys"]; [msg human "u1"]; [msg ai "a1"];
                  [msg human "u2"]; [msg ai "a2"]; [msg human "u3"]])
              (MemoryStore.constructor (Some 3) ∅) in
  read (MemoryStore.getMessages st.1 st.2).2 (MemoryStore.getMessages st.1 st.2).1
  = [msg system "sys"; msg human "u2"; msg ai "a2"; msg human "u3"].
Proof. vm_compute. reflexivity. Qed.

(** Three requests: the first tool throws, the second name is unknown, the
    third tool returns.  All three get a result, in order, and both known
    tools were invoked. *)
Example scenario_partial_failure :
  let failing : @Graph.StructuredTool nat :=
    {| Graph.tool_name := "a";
       Graph.tool_invoke := λ _ w,
         (inl {| Graph.exn_message := Some "Timeout 15000ms exceeded";
                 Graph.exn_string := "Error: Timeout 15000ms exceeded" |}, S w) |} in
  let working : @Graph.StructuredTool nat :=
    {| Graph.tool_name := "b";
       Graph.tool_invoke := λ _ w, (inr (JStr "Scrolled vertically by dy=100"), S w) |} in
  let calls := [{| tc_name := "a"; tc_args := []; tc_id := "i1" |};
                {| tc_name := "c"; tc_args := []; tc_id := "i2" |};
                {| tc_name := "b"; tc_args := [("dy", JNum 100)]; tc_id := "i3" |}] in
  let messages := [{| _getType := ai; content := EmptyString;
                      tool_calls := Some calls; name := None;
                      tool_call_id := None; msg_id := None |}] in
  Graph.createToolsNode (λ _, "null") [failing; working] messages
    {| Graph.world := 0%nat; Graph.invoked := []; Graph.visited := [] |}
  = (inr [{| Graph.role := "tool"; Graph.tr_name := "a";
             Graph.tr_content := "ERROR running tool " +:+ Graph.dquote +:+ "a"
                                 +:+ Graph.dquote +:+ ": Timeout 15000ms exceeded";
             Graph.tr_tool_call_id := "i1" |};
          {| Graph.role := "tool"; Graph.tr_name := "c";
             Graph.tr_content := "ERROR: unknown tool " +:+ Graph.dquote +:+ "c"
                                 +:+ Graph.dquote;
             Graph.tr_tool_call_id := "i2" |};
          {| Graph.role := "tool"; Graph.tr_name := "b";
             Graph.tr_content := "Scrolled vertically by dy=100";
             Graph.tr_tool_call_id := "i3" |}],
     {| Graph.world := 2%nat;
        Graph.invoked := [("a", []); ("b", [("dy", JNum 100)])];
        Graph.visited := [] |}).
Proof. vm_compute. reflexivity. Qed.

(** A model that asks for one tool and then answers: the graph runs agent,
    tools, agent and returns the four turns.  The three node runs need a
    recursion limit above 3. *)
Example scenario_one_tool_round :
  let llm : list (@Graph.StructuredTool nat) → list Message → nat
            → (Graph.Exn + Message) * nat :=
    λ _ ms w,
      (inr (if bool_decide (length ms < 3)%nat
            then {| _getType := ai; content := EmptyString;
                    tool_calls := Some [{| tc_name := "b"; tc_args := [];
                                           tc_id := "i1" |}];
                    name := None; tool_call_id := None; msg_id := Some "r1" |}
            else {| _getType := ai; content := "done"; tool_calls := None;
                    name := None; tool_call_id := None; msg_id := Some "r2" |}),
       S w) in
  let working : @Graph.StructuredTool nat :=
    {| Graph.tool_name := "b";
       Graph.tool_invoke := λ _ w, (inr (JStr "ok"), S w) |} in
  let v4 : nat → string * nat :=
    λ w, (String (Ascii.ascii_of_nat (65 + w)) EmptyString, S w) in
  let limit_reached := {| Graph.exn_message := None;
                          Graph.exn_string := "GraphRecursionError" |} in
  let g := Graph.createGraph (λ _, "null") llm [working] (msg system "sys") in
  let σ := {| Graph.world := 0%nat; Graph.invoked := []; Graph.visited := [] |} in
  let out := Graph.graph_invoke v4 limit_reached g 4 [msg human "go"] σ in
  match out.1 with
  | inr ms => content <$> ms = ["go"; EmptyString; "ok"; "done"]
              ∧ Graph.finalAnswer ms = Some "done"
  | inl _ => False
  end
  ∧ Graph.visited out.2 = [Graph.agent; Graph.tools; Graph.agent]
  ∧ (Graph.graph_invoke v4 limit_reached g 3 [msg human "go"] σ).1
    = inl limit_reached.
Proof. vm_compute. done. Qed.

(** * More on the store: what a sequence of calls leaves stored *)

Section store_runs.
Import MemoryStore.
Implicit Types (st : t * heap) (msgs l acc : list Message) (ops : list Op)
  (M : Z).

(** The stored sequence after a run depends on the bound and on the stored
    sequence before it only. *)
Lemma run_stored ops st :
  wf st → stored (run ops st) = run_list (maxMessages st.1) (stored st) ops.
Proof.
  revert st. induction ops as [|op ops IH]; intros st Hwf; [done|].
  simpl. rewrite IH by (by apply step_wf).
  rewrite step_maxMessages, step_stored by done.
  by destruct op.
Qed.

Lemma run_list_reads M l ops :
  run_list M l ops = run_list M l (List.filter writes ops).
Proof.
  revert l. induction ops as [|op ops IH]; intros l; [done|].
  simpl. destruct op; simpl; by rewrite IH.
Qed.

(** The reading calls ([getMessages], [getRecentMessages],
    [getMessageCount]) have no effect on what the store holds: a run and the
    same run with the reading calls taken out leave the same sequence. *)
Theorem reads_do_not_change_store ops st :
  wf st → stored (run ops st) = stored (run (List.filter writes ops) st).
Proof.
  intros Hwf. rewrite !run_stored by done. apply run_list_reads.
Qed.

Lemma reads_do_not_change_store_witness :
  let st := constructor (Some 2) ∅ in
  let ops := [AddMessages [msg system "s"; msg human "u1"]; GetMessages;
              GetRecentMessages 1; AddMessages [msg ai "a1"; msg human "u2"];
              GetMessageCount] in
  stored (run ops st) = stored (run (List.filter writes ops) st).
Proof.
  intros st ops. apply (reads_do_not_change_store ops st).
  eexists; vm_compute; reflexivity.
Defined.

(** After [clear()] the store behaves as a new store with the same bound:
    any further calls leave the same sequence in both. *)
Theorem clear_is_fresh_start ops st (h0 : heap) :
  stored (run ops (clear st.1 st.2))
  = stored (run ops (constructor (Some (maxMessages st.1)) h0)).
Proof.
  rewrite !run_stored by (apply clear_wf || apply constructor_wf).
  by rewrite clear_stored, constructor_stored.
Qed.

Lemma appends_under_bound M l (batches : list (list Message)) :
  Z.of_nat (length (l ++ concat batches)) ≤ M →
  run_list M l (AddMessages <$> batches) = l ++ concat batches.
Proof.
  revert l. induction batches as [|msgs batches IH]; intros l Hlen.
  - simpl. by rewrite app_nil_r.
  - rewrite fmap_cons. simpl in *. rewrite app_assoc in Hlen.
    unfold appended. simpl.
    rewrite bool_decide_eq_false_2.
    + rewrite app_assoc. by apply IH.
    + rewrite length_app in Hlen. lia.
Qed.

(** While the turns handed to a new store fit its bound (50 when none is
    given), nothing is evicted and nothing is moved: the store holds the
    batches in the order given, instruction turns included. *)
Theorem under_bound_nothing_evicted (M : option Z) (h0 : heap)
    (batches : list (list Message)) :
  Z.of_nat (length (concat batches)) ≤ default 50 M →
  stored (run (AddMessages <$> batches) (constructor M h0)) = concat batches.
Proof.
  intros Hlen. rewrite run_stored by apply constructor_wf.
  rewrite constructor_stored, constructor_maxMessages.
  by apply (appends_under_bound _ []).
Qed.

Lemma under_bound_nothing_evicted_witness :
  let batches := [[msg human "u1"; msg system "late instruction"];
                  []; [msg ai "a1"]] in
  stored (run (AddMessages <$> batches) (constructor None ∅)) = concat batches.
Proof.
  intros batches. apply (under_bound_nothing_evicted None ∅ batches).
  vm_compute. discriminate.
Defined.
End store_runs.

(** * More on eviction: settled sequences and exact retention *)

Section retention.
Import MemoryStore.
Implicit Types (st : t * heap) (msgs l acc a b : list Message) (ops : list Op)
  (M : Z).

Lemma slice_neg_idemp {A} M (l : list A) :
  0 ≤ M → slice (- M) (slice (- M) l) = slice (- M) l.
Proof.
  intros HM. destruct (decide (M = 0)) as [->|Hne].
  - by rewrite !slice_zero.
  - apply slice_neg_all; [lia|].
    rewrite slice_neg_length by lia. lia.
Qed.

(** Slicing to the last [M], adding turns and slicing again is slicing
    once. *)
Lemma slice_neg_app {A} M (a b : list A) :
  1 ≤ M → slice (- M) (slice (- M) a ++ b) = slice (- M) (a ++ b).
Proof.
  intros HM. rewrite !slice_neg by done.
  rewrite length_app, length_drop, length_app.
  destruct (decide (length a ≤ Z.to_nat M)%nat) as [Hle|Hgt].
  - replace (length a - Z.to_nat M)%nat with 0%nat by lia.
    rewrite drop_0. f_equal. lia.
  - rewrite <- (drop_app_le a b (length a - Z.to_nat M)) by lia.
    rewrite drop_drop. f_equal. lia.
Qed.

Lemma settled_nil M : 0 ≤ M → settled M [].
Proof. intros HM. left. simpl. lia. Qed.

Lemma settled_appended M l msgs : 0 ≤ M → settled M (appended M l msgs).
Proof.
  intros HM. unfold appended. cbn zeta. case_bool_decide as Hlen.
  - right. rewrite instructions_evicted, others_evicted. split.
    + apply evicted_unfold.
    + by apply slice_neg_idemp.
  - left. lia.
Qed.

Lemma settled_run_list M l ops : 0 ≤ M → settled M l → settled M (run_list M l ops).
Proof.
  intros HM. revert l. induction ops as [|op ops IH]; intros l Hl; [done|].
  simpl. apply IH. destruct op; simpl; try done.
  - by apply settled_appended.
  - by apply settled_nil.
Qed.

Lemma appended_nil_settled M l : settled M l → appended M l [] = l.
Proof.
  intros Hl. unfold appended. cbn zeta. rewrite app_nil_r.
  case_bool_decide as Hlen; [|done].
  destruct Hl as [Hle|[Hgrouped Hsliced]]; [lia|].
  rewrite evicted_unfold, Hsliced. by symmetry.
Qed.

(** With a bound of at least 0, in every state a new store can reach,
    [addMessages([])] leaves the stored sequence as it is. *)
Theorem append_empty_noop M (h0 : heap) ops :
  0 ≤ M →
  let st := run ops (constructor (Some M) h0) in
  stored (addMessages st.1 [] st.2) = stored st.
Proof.
  intros HM st.
  assert (Hwf : wf st) by apply run_wf, constructor_wf.
  rewrite addMessages_stored by done.
  apply appended_nil_settled. unfold st.
  rewrite run_maxMessages, run_stored by apply constructor_wf.
  rewrite constructor_stored, constructor_maxMessages.
  change (default 50 (Some M)) with M.
  apply settled_run_list; [done|by apply settled_nil].
Qed.

Lemma append_empty_noop_witness :
  let ops := [AddMessages [msg human "u1"; msg system "s"; msg ai "a1"];
              GetMessages; AddMessages [msg human "u2"]] in
  let st := run ops (constructor (Some 2) ∅) in
  stored (addMessages st.1 [] st.2) = stored st.
Proof.
  intros ops. apply (append_empty_noop 2 ∅ ops). lia.
Defined.

(** With a negative bound the eviction branch runs on every call, the empty
    append included, and each run drops more turns. *)
Example append_empty_negative_bound :
  let st := run [AddMessages [msg human "u1"; msg ai "a1"; msg human "u2"]]
                (constructor (Some (-1)) ∅) in
  stored st = [msg ai "a1"; msg human "u2"]
  ∧ stored (addMessages st.1 [] st.2) = [msg human "u2"].
Proof. split; vm_compute; reflexivity. Qed.

Lemma others_run_list M l acc ops :
  1 ≤ M →
  others l = slice (- M) (others acc) →
  others (run_list M l ops) = slice (- M) (others (since_clear acc ops)).
Proof.
  intros HM. revert l acc.
  induction ops as [|op ops IH]; intros l acc Hl; [done|].
  simpl. apply IH. destruct op; simpl; try done.
  - assert (Happ : ∀ x y, others (x ++ y) = others x ++ others y).
    { intros x y. unfold others. apply filter_app. }
    rewrite Happ, <- slice_neg_app, <- Hl by done.
    unfold appended. cbn zeta. case_bool_decide as Hlen.
    + by rewrite others_evicted, Happ.
    + rewrite Happ. symmetry. apply slice_neg_all; [done|].
      pose proof (length_filter (λ m, _getType m ≠ system) (l ++ msgs)) as Hf.
      fold (others (l ++ msgs)) in Hf. rewrite Happ in Hf. lia.
  - by rewrite slice_neg_all by (simpl; lia).
Qed.

(** With a bound [M] of at least 1, in every state a new store can reach,
    the retained non-instruction turns are exactly the last [M] of the
    non-instruction turns handed in since the last [clear()], and all of them
    when there are fewer: eviction takes the oldest and never more than it
    must. *)
Theorem retained_others_exact M (h0 : heap) ops :
  1 ≤ M →
  let st := run ops (constructor (Some M) h0) in
  let handed := others (since_clear [] ops) in
  others (stored st) = drop (length handed - Z.to_nat M) handed.
Proof.
  intros HM st handed. unfold st.
  rewrite run_stored by apply constructor_wf.
  rewrite constructor_stored, constructor_maxMessages.
  change (default 50 (Some M)) with M.
  rewrite (others_run_list M [] [] ops HM).
  - by apply slice_neg.
  - by rewrite slice_neg_all by (simpl; lia).
Qed.

Lemma retained_others_exact_witness :
  let ops := [AddMessages [msg system "s"; msg human "u1"]; Clear;
              AddMessages [msg human "u2"; msg ai "a2"; msg system "s2"];
              AddMessages [msg human "u3"]] in
  let st := run ops (constructor (Some 2) ∅) in
  let handed := others (since_clear [] ops) in
  others (stored st) = drop (length handed - Z.to_nat 2) handed.
Proof.
  intros ops. apply (retained_others_exact 2 ∅ ops). lia.
Defined.
End retention.

Section tails_and_sizes.
Import MemoryStore.
Implicit Types (st : t * heap) (ops : list Op) (M : Z).

Lemma getRecentMessages_last_witness :
  let st := run [AddMessages [msg system "s"; msg human "u1"; msg ai "a1"]]
                (constructor None ∅) in
  let tail := read (getRecentMessages st.1 2 st.2).2
                   (getRecentMessages st.1 2 st.2).1 in
  tail = drop (length (stored st) - Z.to_nat 2) (stored st)
  ∧ Z.of_nat (length tail) = Z.min 2 (Z.of_nat (getMessageCount st.1 st.2))
  ∧ (Z.of_nat (getMessageCount st.1 st.2) ≤ 2 → tail = stored st).
Proof.
  intros st. apply (getRecentMessages_last st 2). lia.
Defined.

(** For [count <= 0], [getRecentMessages(count)] does not return the last
    turns: it returns the stored sequence without its first [-count] turns,
    so everything for [count = 0] and nothing once [-count] reaches the
    size. *)
Theorem getRecentMessages_nonpositive st count :
  count ≤ 0 →
  read (getRecentMessages st.1 count st.2).2 (getRecentMessages st.1 count st.2).1
  = drop (Z.to_nat (- count)) (stored st).
Proof.
  intros Hc. rewrite getRecentMessages_read. apply slice_nonneg. lia.
Qed.

Lemma getRecentMessages_nonpositive_witness :
  let st := run [AddMessages [msg system "s"; msg human "u1"; msg ai "a1"]]
                (constructor None ∅) in
  read (getRecentMessages st.1 (-1) st.2).2 (getRecentMessages st.1 (-1) st.2).1
  = drop (Z.to_nat (- -1)) (stored st).
Proof.
  intros st. apply (getRecentMessages_nonpositive st (-1)). lia.
Defined.

(** With a bound [M] of at least 1, in every state a new store can reach,
    [getMessageCount()] is at most [M] plus the number of instruction turns
    handed in since the last [clear()]. *)
Theorem size_bound M (h0 : heap) ops :
  1 ≤ M →
  let st := run ops (constructor (Some M) h0) in
  Z.of_nat (getMessageCount st.1 st.2)
  ≤ Z.of_nat (length (instructions (since_clear [] ops))) + M.
Proof.
  intros HM st. unfold getMessageCount. fold (stored st).
  rewrite (length_instructions_others (stored st)).
  destruct (run_since_clear ops (constructor (Some M) h0) []) as [Hi _].
  { apply constructor_wf. }
  { by rewrite constructor_stored. }
  { by rewrite constructor_stored. }
  fold st in Hi. rewrite Hi.
  assert (Ho : others (stored st) = slice (- M) (others (since_clear [] ops))).
  { unfold st. rewrite run_stored by apply constructor_wf.
    rewrite constructor_stored, constructor_maxMessages.
    change (default 50 (Some M)) with M.
    apply others_run_list; [done|].
    by rewrite slice_neg_all by (simpl; lia). }
  pose proof (slice_neg_length M (others (since_clear [] ops)) HM) as Hlen.
  rewrite <- Ho in Hlen. lia.
Qed.

Lemma size_bound_witness :
  let ops := [AddMessages [msg system "s"; msg human "u1"; msg ai "a1"];
              AddMessages [msg human "u2"; msg ai "a2"]] in
  let st := run ops (constructor (Some 2) ∅) in
  Z.of_nat (getMessageCount st.1 st.2)
  ≤ Z.of_nat (length (instructions (since_clear [] ops))) + 2.
Proof.
  intros ops. apply (size_bound 2 ∅ ops). lia.
Defined.
End tails_and_sizes.

(** * More on the tools node *)

Section dispatch_more.
Import Graph.
Context {World : Type} (JSON_stringify : Json → string).
Implicit Types (tools pre post : list (@StructuredTool World)) (call : ToolCall)
  (σ : @Runtime World) (messages : list Message).

Lemma find_first_match pre (t : @StructuredTool World) post (name : string) :
  Forall (λ x, tool_name x ≠ name) pre → tool_name t = name →
  List.find (λ x, String.eqb (tool_name x) name) (pre ++ t :: post) = Some t.
Proof.
  intros Hpre Ht. induction Hpre as [|x pre Hx _ IH]; simpl.
  - by rewrite (proj2 (String.eqb_eq _ _) Ht).
  - by destruct (String.eqb_spec (tool_name x) name).
Qed.

(** When several catalog entries carry the requested name, the request goes
    to the first of them; the later ones play no part. *)
Theorem first_match_dispatch pre (t : @StructuredTool World) post call σ :
  Forall (λ x, tool_name x ≠ tc_name call) pre →
  tool_name t = tc_name call →
  run_call JSON_stringify (pre ++ t :: post) call σ
  = run_call JSON_stringify [t] call σ.
Proof.
  intros Hpre Ht. unfold run_call.
  rewrite (find_first_match pre t post _ Hpre Ht).
  pose proof (find_first_match [] t [] _ (Forall_nil_2 _) Ht) as Hone.
  simpl app in Hone. by rewrite Hone.
Qed.

(** A batch of requests is run as its first part followed by its second
    part, the second starting from the results and the world the first
    left. *)
Theorem for_calls_app tools (calls1 calls2 : list ToolCall)
    (results : list ToolResult) σ :
  for_calls JSON_stringify tools (calls1 ++ calls2) results σ
  = bind (for_calls JSON_stringify tools calls1 results)
         (λ results1, for_calls JSON_stringify tools calls2 results1) σ.
Proof.
  revert results σ. induction calls1 as [|call calls1 IH]; intros results σ.
  - done.
  - cbn [app for_calls]. unfold bind in *.
    destruct (run_call JSON_stringify tools call σ) as [[e|r] σ1]; [done|].
    apply IH.
Qed.

(** The tools node and the router look at the last message only: requests
    carried by earlier messages are not run again and do not keep the loop
    going. *)
Lemma last_message_decides messages (m : Message) tools σ :
  createToolsNode JSON_stringify tools (messages ++ [m]) σ
  = createToolsNode JSON_stringify tools [m] σ
  ∧ shouldContinue (messages ++ [m]) = shouldContinue [m].
Proof.
  unfold createToolsNode, shouldContinue, last_tool_calls.
  by rewrite last_snoc.
Qed.
End dispatch_more.

Lemma first_match_dispatch_witness :
  let first : @Graph.StructuredTool nat :=
    {| Graph.tool_name := "browser_click";
       Graph.tool_invoke := λ _ w, (inr (JStr "first"), S w) |} in
  let second : @Graph.StructuredTool nat :=
    {| Graph.tool_name := "browser_click";
       Graph.tool_invoke := λ _ w, (inr (JStr "second"), (w + 2)%nat) |} in
  let other : @Graph.StructuredTool nat :=
    {| Graph.tool_name := "browser_goto";
       Graph.tool_invoke := λ _ w, (inr (JStr "other"), w) |} in
  let call := {| tc_name := "browser_click"; tc_args := []; tc_id := "i1" |} in
  let σ := {| Graph.world := 0%nat; Graph.invoked := []; Graph.visited := [] |} in
  Graph.run_call (λ _, "null") ([other] ++ first :: [second]) call σ
  = Graph.run_call (λ _, "null") [first] call σ.
Proof.
  intros first second other call σ.
  apply (first_match_dispatch (λ _, "null") [other] first [second] call σ).
  - repeat constructor. simpl. discriminate.
  - reflexivity.
Defined.

(** * More on the loop *)

Section loop_more.
Import Graph.
Context {World : Type} (JSON_stringify : Json → string).
Context (v4 : World → string * World) (GraphRecursionError : Exn).
Implicit Types (tools : list (@StructuredTool World)) (σ : @Runtime World)
  (messages : list Message)
  (llm : list (@StructuredTool World) → list Message → World
         → (Exn + Message) * World).

(** A failure of the model call is not caught anywhere in the graph: the
    run from the agent node ends with that failure, the state is not
    returned, and no tool has been invoked. *)
Theorem llm_failure_propagates llm tools systemMessage messages σ
    (e : Exn) (w : World) (limit : nat) :
  llm tools (systemMessage :: messages) (world σ) = (inl e, w) →
  run_from v4 GraphRecursionError
    (createGraph JSON_stringify llm tools systemMessage) (S limit)
    agent messages σ
  = (inl e, {| world := w; invoked := invoked σ;
               visited := visited σ ++ [agent] |}).
Proof.
  intros Hllm. cbn [run_from]. unfold bind, visit.
  cbn [createGraph node_update]. unfold createAgentNode.
  cbn [world invoked visited]. by rewrite Hllm.
Qed.
End loop_more.

Lemma llm_failure_propagates_witness :
  let failure := {| Graph.exn_message := Some "429 rate limit";
                    Graph.exn_string := "Error: 429 rate limit" |} in
  let llm : list (@Graph.StructuredTool nat) → list Message → nat
            → (Graph.Exn + Message) * nat :=
    λ _ _ w, (inl failure, S w) in
  let σ := {| Graph.world := 0%nat; Graph.invoked := []; Graph.visited := [] |} in
  Graph.run_from (λ w, ("uuid", S w)) failure
    (Graph.createGraph (λ _, "null") llm [] (msg system "sys")) 25
    Graph.agent [msg human "go"] σ
  = (inl failure, {| Graph.world := 1%nat; Graph.invoked := [];
                     Graph.visited := [Graph.agent] |}).
Proof.
  intros failure llm σ.
  apply (llm_failure_propagates (λ _, "null") (λ w, ("uuid", S w)) failure llm []
           (msg system "sys") [msg human "go"] σ failure 1%nat 24%nat).
  reflexivity.
Defined.

(** * The logger *)

Section logger.
Import Logger.
Context (JSON_stringify : Json → string).
Implicit Types (this : t) (console : list string) (cs : list Call).

Lemma calls_cons (c : Call) cs (st : t * list string) :
  calls JSON_stringify (c :: cs) st = calls JSON_stringify cs (call JSON_stringify c st).
Proof. done. Qed.

Lemma call_enabled_false (c : Call) this console :
  enabled this = false → c ≠ SetEnabled true →
  enabled (call JSON_stringify c (this, console)).1 = false
  ∧ (call JSON_stringify c (this, console)).2 = console.
Proof.
  intros Hoff Hc. destruct c as [b|b|m message data now]; simpl.
  - split; [|done]. by destruct b.
  - done.
  - unfold log. by rewrite Hoff.
Qed.

(** Once the logger is disabled, nothing is written, whatever is called on
    it, until [setEnabled(true)] is called. *)
Theorem disabled_logger_silent cs this console :
  enabled this = false → Forall (λ c, c ≠ SetEnabled true) cs →
  (calls JSON_stringify cs (this, console)).2 = console.
Proof.
  intros Hoff Hcs. revert this Hoff.
  induction Hcs as [|c cs Hc _ IH]; intros this Hoff; [done|].
  rewrite calls_cons.
  destruct (call_enabled_false c this console Hoff Hc) as [Hoff' Hsame].
  destruct (call JSON_stringify c (this, console)) as [this' console'].
  cbn [fst snd] in *. subst console'. by apply IH.
Qed.

(** The console is append-only: no call on the logger removes or changes a
    line written before it. *)
Theorem console_append_only cs this console :
  console `prefix_of` (calls JSON_stringify cs (this, console)).2.
Proof.
  revert this console. induction cs as [|c cs IH]; intros this console; [done|].
  rewrite calls_cons.
  destruct (call JSON_stringify c (this, console)) as [this' console'] eqn:Hc.
  etrans; [|apply IH].
  destruct c as [b|b|m message data now]; simpl in Hc; injection Hc as <- <-;
    try done.
  unfold log. destruct (enabled this); simpl; [by apply prefix_app_r|done].
Qed.

End logger.

Lemma disabled_logger_silent_witness :
  let cs := [Logger.Write Logger.Agent "Calling LLM" None "2026-01-01T00:00:00.000Z";
             Logger.SetTimestamps false;
             Logger.Write Logger.Error "failed" (Some (JNum 1))
               "2026-01-01T00:00:01.000Z"] in
  (Logger.calls (λ _, "1") cs (Logger.setEnabled Logger.new false, ["kept"])).2
  = ["kept"].
Proof.
  intros cs.
  apply (disabled_logger_silent (λ _, "1") cs (Logger.setEnabled Logger.new false)
           ["kept"]).
  - reflexivity.
  - repeat constructor; discriminate.
Defined.

(** * The browser controller *)

Section controller.
Import BrowserController.
Context {World Browser BrowserContext Page : Type}.
Context (launch : World → (Graph.Exn + Browser) * World).
Context (newContext : Browser → World → (Graph.Exn + BrowserContext) * World).
Context (newPage : BrowserContext → World → (Graph.Exn + Page) * World).
Context (page_close : Page → World → (Graph.Exn + ()) * World).
Context (browser_close : Browser → World → (Graph.Exn + ()) * World).
Implicit Types (this : @t Browser Page) (w : World) (p : Page) (b : Browser).

Lemma return_page_Some this w p this' w' :
  return_page this w = (inr p, (this', w')) →
  this' = this ∧ w' = w ∧ page this = Some p.
Proof.
  unfold return_page. destruct (page this) as [q|]; [|done].
  by intros [= -> -> ->].
Qed.

(** A controller on which [ensure()] has succeeded holds a browser and the
    page it returned. *)
Lemma ensure_success this w p this' w' :
  ensure launch newContext newPage this w = (inr p, (this', w')) →
  is_Some (browser this') ∧ page this' = Some p.
Proof.
  unfold ensure. destruct (browser this) as [b|] eqn:Hb.
  - intros (-> & -> & Hp)%return_page_Some. by rewrite Hb.
  - destruct (launch w) as [[e|b] w1]; [done|].
    destruct (newContext b w1) as [[e|ctx] w2]; [done|].
    destruct (newPage ctx w2) as [[e|q] w3]; [done|].
    intros (Heq & _ & Hp)%return_page_Some. subst this'. simpl in *.
    split; [eauto|done].
Qed.

(** Once [ensure()] has succeeded, every later [ensure()] returns the same
    page, launches nothing and leaves the controller and the world as they
    are. *)
Theorem ensure_idempotent this w p this' w' :
  ensure launch newContext newPage this w = (inr p, (this', w')) →
  ∀ w'', ensure launch newContext newPage this' w'' = (inr p, (this', w'')).
Proof.
  intros [[b Hb] Hp]%ensure_success w''.
  unfold ensure, return_page. by rewrite Hb, Hp.
Qed.

(** When the browser is launched but the context or the page cannot be
    created, [ensure()] fails with that error and the controller keeps the
    browser without a page: every later [ensure()] fails with "Browser page
    not initialized" without calling Playwright, until [close()], which
    closes the browser and brings the controller back to its initial
    state. *)
Theorem ensure_stuck_without_page w b w1 (e : Graph.Exn) w2 :
  launch w = (inr b, w1) →
  (newContext b w1 = (inl e, w2)
   ∨ ∃ ctx wc, newContext b w1 = (inr ctx, wc) ∧ newPage ctx wc = (inl e, w2)) →
  let this' := {| browser := Some b; page := None |} in
  ensure launch newContext newPage new w = (inl e, (this', w2))
  ∧ (∀ w'', ensure launch newContext newPage this' w'' = (inl not_initialized, (this', w'')))
  ∧ (∀ w'', close page_close browser_close this' w'' = (new, (browser_close b w'').2)).
Proof.
  intros Hlaunch Hfail this'. split_and!.
  - unfold ensure. simpl. rewrite Hlaunch.
    destruct Hfail as [Hctx|(ctx & wc & Hctx & Hpage)].
    + by rewrite Hctx.
    + by rewrite Hctx, Hpage.
  - done.
  - done.
Qed.

End controller.

Lemma ensure_idempotent_witness :
  let launch : nat → (Graph.Exn + nat) * nat := λ w, (inr w, S w) in
  let newContext : nat → nat → (Graph.Exn + nat) * nat := λ b w, (inr b, S w) in
  let newPage : nat → nat → (Graph.Exn + nat) * nat := λ c w, (inr (c + 7)%nat, S w) in
  let this' := {| BrowserController.browser := Some 0%nat;
                  BrowserController.page := Some 7%nat |} in
  BrowserController.ensure launch newContext newPage this' 5%nat
  = (inr 7%nat, (this', 5%nat)).
Proof.
  intros launch newContext newPage this'.
  apply (ensure_idempotent launch newContext newPage BrowserController.new 0%nat
           7%nat this' 3%nat).
  reflexivity.
Defined.

Lemma ensure_stuck_without_page_witness :
  let failure := {| Graph.exn_message := Some "Target closed";
                    Graph.exn_string := "Error: Target closed" |} in
  let launch : nat → (Graph.Exn + nat) * nat := λ w, (inr w, S w) in
  let newContext : nat → nat → (Graph.Exn + nat) * nat := λ b w, (inr b, S w) in
  let newPage : nat → nat → (Graph.Exn + nat) * nat := λ c w, (inl failure, S w) in
  let browser_close : nat → nat → (Graph.Exn + ()) * nat := λ b w, (inr (), S w) in
  let this' := {| BrowserController.browser := Some 0%nat;
                  BrowserController.page := (None : option nat) |} in
  BrowserController.ensure launch newContext newPage BrowserController.new 0%nat
  = (inl failure, (this', 3%nat))
  ∧ BrowserController.ensure launch newContext newPage this' 3%nat
    = (inl BrowserController.not_initialized, (this', 3%nat))
  ∧ BrowserController.close (λ _ w, (inr (), w)) browser_close this' 3%nat
    = (BrowserController.new, 4%nat).
Proof.
  intros failure launch newContext newPage browser_close this'.
  destruct (ensure_stuck_without_page launch newContext newPage (λ _ w, (inr (), w))
              browser_close 0%nat 0%nat 1%nat failure 3%nat)
    as (Hfail & Hstuck & Hclose).
  - reflexivity.
  - right. exists 0%nat, 2%nat. split; reflexivity.
  - split; [exact Hfail|]. split; [exact (Hstuck 3%nat)|exact (Hclose 3%nat)].
Defined.

(** * Output limits of the browser tools *)

Section tool_limits.
Import Tools.

Lemma slice2_from_zero {A} (end_ : Z) (l : list A) :
  slice2 0 end_ l
  = take (Z.to_nat (if bool_decide (end_ < 0)
                    then Z.max (Z.of_nat (length l) + end_) 0
                    else Z.min end_ (Z.of_nat (length l)))) l.
Proof.
  unfold slice2. rewrite (bool_decide_eq_false_2 (0 < 0)) by lia.
  replace (Z.to_nat (0 `min` Z.of_nat (length l))) with 0%nat by lia.
  rewrite drop_0. f_equal. lia.
Qed.

(** The text [browser_extract_text] returns is always a prefix of the
    element's trimmed inner text: its first 2000 code units when [maxChars]
    is not given, its first [maxChars] when it is not negative, and the
    trimmed text without its last [-maxChars] code units when it is
    negative. *)
Theorem clipped_bounds {A} (maxChars : option Z) (text : list A) :
  clipped maxChars text `prefix_of` text
  ∧ Z.of_nat (length (clipped maxChars text))
    = match maxChars with
      | None => Z.min 2000 (Z.of_nat (length text))
      | Some n => if bool_decide (n < 0)
                  then Z.max (Z.of_nat (length text) + n) 0
                  else Z.min n (Z.of_nat (length text))
      end.
Proof.
  unfold clipped. destruct maxChars as [n|];
    rewrite slice2_from_zero; (split; [apply prefix_take|]);
    rewrite length_take; repeat case_bool_decide; lia.
Qed.

(** [browser_find_links] lists at most 50 elements whatever [maxLinks] is,
    at most 20 when [maxLinks] is not given, and [maxLinks = 0] is the same
    as not giving it; what it lists is always a prefix of the links found. *)
Theorem limitedLinks_bounds {A B} (describe : A → nat → B) (maxLinks : option Z)
    (elements : list A) :
  limitedLinks describe maxLinks elements `prefix_of` links describe elements
  ∧ (length (limitedLinks describe maxLinks elements) ≤ 50)%nat
  ∧ length (limitedLinks describe None elements)
    = (20 `min` length elements)%nat
  ∧ limitedLinks describe (Some 0) elements = limitedLinks describe None elements.
Proof.
  assert (Hlinks : (length (links describe elements) = 50 `min` length elements)%nat).
  { unfold links. rewrite length_imap, slice2_from_zero, length_take.
    rewrite bool_decide_eq_false_2 by lia. lia. }
  unfold limitedLinks. rewrite !slice2_from_zero. split_and!.
  - apply prefix_take.
  - rewrite length_take. lia.
  - rewrite length_take, Hlinks. unfold limit.
    case_bool_decide; lia.
  - done.
Qed.
End tool_limits.
